(** * tally: the scope of scope.go, embedded and verified

    A shallow embedding of [scope.go] (package tally): the [scope] struct,
    lazy metric registration ([Counter], [Gauge], [Timer], [Histogram]),
    the bucket-storage cache keyed by [getBucketsIdentity], the reporting
    sweeps ([report], [cachedReport]), the tick of the reporting loop
    ([reportLoopRun]), [Close], name qualification and tag merging.

    The embedding is sequential: a method is a computation over the
    receiver scope, an allocation counter and a log of the calls made to
    collaborators that live outside scope.go (mutexes, reporters, the
    registry, the quit channel).  Run-time panics are outcomes, and the
    state reached at the panic is kept. *)

From Stdlib Require Import ZArith Lia.
From stdpp Require Import base option list gmap strings.

(** ** Collaborators declared outside scope.go *)

(** Go's [error]: [None] is [nil]. *)
Definition error : Type := option string.

(** A Go [map[string]string]; [None] is the nil map. *)
Definition tagmap : Type := option (gmap string string).

(** Reading a Go map: the nil map reads as the empty one. *)
Definition tag_entries (t : tagmap) : gmap string string := default ∅ t.

(** [len(m)] of a Go map. *)
Definition tag_len (t : tagmap) : nat := size (tag_entries t).

(** The capability set a reporter advertises. *)
Record Capabilities : Type := mkCapabilities {
  Reporting : bool;
  Tagging : bool
}.

Definition capabilitiesNone : Capabilities :=
  {| Reporting := false; Tagging := false |}.

(** A push reporter as scope.go sees it: an identity, its capabilities,
    and whether it also implements [io.Closer] ([sr_closer = Some e]: it
    does, and its [Close] returns [e]). *)
Record StatsReporter : Type := mkStatsReporter {
  sr_id : string;
  sr_capabilities : Capabilities;
  sr_closer : option error
}.

(** A cached reporter, likewise. *)
Record CachedStatsReporter : Type := mkCachedStatsReporter {
  csr_id : string;
  csr_capabilities : Capabilities;
  csr_closer : option error
}.

(** The [BaseStatsReporter] interface value held in [scope.baseReporter]:
    it is one of the two reporters above. *)
Inductive BaseStatsReporter : Type :=
| BaseOfReporter (r : StatsReporter)
| BaseOfCachedReporter (c : CachedStatsReporter).

Definition base_capabilities (b : BaseStatsReporter) : Capabilities :=
  match b with
  | BaseOfReporter r => sr_capabilities r
  | BaseOfCachedReporter c => csr_capabilities c
  end.

(** The type assertion [baseReporter.(io.Closer)]. *)
Definition base_closer (b : BaseStatsReporter) : option error :=
  match b with
  | BaseOfReporter r => sr_closer r
  | BaseOfCachedReporter c => csr_closer c
  end.

(** The [Sanitizer] interface: three total string functions. *)
Record Sanitizer : Type := mkSanitizer {
  Name : string → string;
  Key : string → string;
  Value : string → string
}.

Definition NewNoOpSanitizer : Sanitizer :=
  {| Name := λ x, x; Key := λ x, x; Value := λ x, x |}.

(** [SanitizeOptions] enters scope.go only through the call of [NewSanitizer]; the
    options are represented by the sanitizer they build. *)
Definition SanitizeOptions : Type := Sanitizer.
Definition NewSanitizer (o : SanitizeOptions) : Sanitizer := o.

(** A [float64], by its IEEE-754 bit pattern, which is all scope.go reads
    of it ([math.Float64bits]). *)
Record float64 : Type := mkFloat64 { float64_bits : Z }.

Definition two64 : Z := 2 ^ 64.

Definition Float64bits (v : float64) : Z := float64_bits v mod two64.

(** The conversion [uint64(dur)] of a [time.Duration] (an int64 count of
    nanoseconds): wrap-around modulo 2^64. *)
Definition uint64_of_Duration (dur : Z) : Z := dur mod two64.

(** A non-nil value of the [Buckets] interface: one of the two bucket
    types of the package, or any other implementation, of which scope.go
    only calls [Len]. *)
Inductive Buckets : Type :=
| DurationBuckets (dbuckets : list Z)
| ValueBuckets (vbuckets : list float64)
| OtherBuckets (len : Z).

Definition Len (b : Buckets) : Z :=
  match b with
  | DurationBuckets ds => Z.of_nat (length ds)
  | ValueBuckets vs => Z.of_nat (length vs)
  | OtherBuckets n => n
  end.

Inductive histogramType : Type :=
| valueHistogramType
| durationHistogramType.

Definition Millisecond : Z := 1000000.
Definition Second : Z := 1000000000.

Definition defaultScopeBuckets : Buckets :=
  DurationBuckets
    [ 0 * Millisecond; 10 * Millisecond; 25 * Millisecond; 50 * Millisecond;
      75 * Millisecond; 100 * Millisecond; 200 * Millisecond;
      300 * Millisecond; 400 * Millisecond; 500 * Millisecond;
      600 * Millisecond; 800 * Millisecond; 1 * Second; 2 * Second;
      5 * Second ]%Z.

Definition DefaultSeparator : string := ".".

(** ** Metric instances

    Instances are heap objects; [*_addr] is the address the allocation
    returned, so two instances are the same object exactly when their
    addresses agree. *)

(** The handle a cached reporter returns from [AllocateCounter],
    [AllocateGauge] or [AllocateTimer]. *)
Record CachedMetric : Type := mkCachedMetric {
  cached_by : CachedStatsReporter;
  cached_name : string;
  cached_tags : tagmap
}.

(** The handle returned by [AllocateHistogram]. *)
Record CachedHistogram : Type := mkCachedHistogram {
  cachedh_by : CachedStatsReporter;
  cachedh_name : string;
  cachedh_tags : tagmap;
  cachedh_buckets : option Buckets
}.

Record counter : Type := mkCounter {
  counter_addr : nat;
  counter_cachedCount : option CachedMetric
}.

Record gauge : Type := mkGauge {
  gauge_addr : nat;
  gauge_cachedGauge : option CachedMetric
}.

Record timer : Type := mkTimer {
  timer_addr : nat;
  timer_name : string;
  timer_tags : tagmap;
  timer_reporter : option StatsReporter;
  timer_cachedTimer : option CachedMetric
}.

Record bucketStorage : Type := mkBucketStorage {
  storage_addr : nat;
  storage_htype : histogramType;
  storage_buckets : option Buckets;
  storage_cachedHistogram : option CachedHistogram
}.

Record histogram : Type := mkHistogram {
  histogram_addr : nat;
  histogram_htype : histogramType;
  histogram_name : string;
  histogram_tags : tagmap;
  histogram_reporter : option StatsReporter;
  histogram_storage : bucketStorage
}.

(** ** The log of calls leaving scope.go *)

Inductive Mutex : Type := cm | gm | tm | hm | status_mu.

Inductive Event : Type :=
| EvRLock (m : Mutex)
| EvRUnlock (m : Mutex)
| EvLock (m : Mutex)
| EvUnlock (m : Mutex)
| EvGoReportLoop (interval : Z)
| EvCloseQuit
| EvRegistryReport (r : StatsReporter)
| EvReporterFlush (r : StatsReporter)
| EvRegistryCachedReport
| EvCachedReporterFlush (c : CachedStatsReporter)
| EvCloserClose (b : BaseStatsReporter)
| EvAllocateCounter (c : CachedStatsReporter) (name : string) (tags : tagmap)
| EvAllocateGauge (c : CachedStatsReporter) (name : string) (tags : tagmap)
| EvAllocateTimer (c : CachedStatsReporter) (name : string) (tags : tagmap)
| EvAllocateHistogram (c : CachedStatsReporter) (name : string)
    (tags : tagmap) (b : option Buckets)
| EvCounterReport (c : counter) (name : string) (tags : tagmap)
    (r : StatsReporter)
| EvGaugeReport (g : gauge) (name : string) (tags : tagmap)
    (r : StatsReporter)
| EvHistogramReport (h : histogram) (name : string) (tags : tagmap)
    (r : StatsReporter)
| EvCounterCachedReport (c : counter)
| EvGaugeCachedReport (g : gauge)
| EvHistogramCachedReport (h : histogram).

(** ** The scope *)

(** A Go channel as [Close] uses it: nil, open, or closed. *)
Inductive chan : Type := ChanNil | ChanOpen | ChanClosed.

Record scopeStatus : Type := mkScopeStatus {
  closed : bool;
  quit : chan
}.

Record scope : Type := mkScope {
  separator : string;
  prefix : string;
  tags : tagmap;
  reporter : option StatsReporter;
  cachedReporter : option CachedStatsReporter;
  baseReporter : option BaseStatsReporter;
  defaultBuckets : option Buckets;
  sanitizer : Sanitizer;
  status : scopeStatus;
  counters : gmap string counter;
  countersSlice : list counter;
  gauges : gmap string gauge;
  gaugesSlice : list gauge;
  histograms : gmap string histogram;
  histogramsSlice : list histogram;
  timers : gmap string timer;
  bucketCache : gmap Z bucketStorage
}.

Record ScopeOptions : Type := mkScopeOptions {
  Tags : tagmap;
  Prefix : string;
  Reporter : option StatsReporter;
  CachedReporter : option CachedStatsReporter;
  Separator : string;
  DefaultBuckets : option Buckets;
  SanitizeOptionsOf : option SanitizeOptions
}.

(** Field assignments on the receiver. *)
Definition set_status (st : scopeStatus) (s : scope) : scope :=
  mkScope (separator s) (prefix s) (tags s) (reporter s) (cachedReporter s)
    (baseReporter s) (defaultBuckets s) (sanitizer s) st
    (counters s) (countersSlice s) (gauges s) (gaugesSlice s)
    (histograms s) (histogramsSlice s) (timers s) (bucketCache s).

Definition set_tags (t : tagmap) (s : scope) : scope :=
  mkScope (separator s) (prefix s) t (reporter s) (cachedReporter s)
    (baseReporter s) (defaultBuckets s) (sanitizer s) (status s)
    (counters s) (countersSlice s) (gauges s) (gaugesSlice s)
    (histograms s) (histogramsSlice s) (timers s) (bucketCache s).

Definition set_counters (m : gmap string counter) (l : list counter)
    (s : scope) : scope :=
  mkScope (separator s) (prefix s) (tags s) (reporter s) (cachedReporter s)
    (baseReporter s) (defaultBuckets s) (sanitizer s) (status s)
    m l (gauges s) (gaugesSlice s)
    (histograms s) (histogramsSlice s) (timers s) (bucketCache s).

Definition set_gauges (m : gmap string gauge) (l : list gauge)
    (s : scope) : scope :=
  mkScope (separator s) (prefix s) (tags s) (reporter s) (cachedReporter s)
    (baseReporter s) (defaultBuckets s) (sanitizer s) (status s)
    (counters s) (countersSlice s) m l
    (histograms s) (histogramsSlice s) (timers s) (bucketCache s).

Definition set_histograms (m : gmap string histogram) (l : list histogram)
    (s : scope) : scope :=
  mkScope (separator s) (prefix s) (tags s) (reporter s) (cachedReporter s)
    (baseReporter s) (defaultBuckets s) (sanitizer s) (status s)
    (counters s) (countersSlice s) (gauges s) (gaugesSlice s)
    m l (timers s) (bucketCache s).

Definition set_timers (m : gmap string timer) (s : scope) : scope :=
  mkScope (separator s) (prefix s) (tags s) (reporter s) (cachedReporter s)
    (baseReporter s) (defaultBuckets s) (sanitizer s) (status s)
    (counters s) (countersSlice s) (gauges s) (gaugesSlice s)
    (histograms s) (histogramsSlice s) m (bucketCache s).

Definition set_bucketCache (m : gmap Z bucketStorage) (s : scope) : scope :=
  mkScope (separator s) (prefix s) (tags s) (reporter s) (cachedReporter s)
    (baseReporter s) (defaultBuckets s) (sanitizer s) (status s)
    (counters s) (countersSlice s) (gauges s) (gaugesSlice s)
    (histograms s) (histogramsSlice s) (timers s) m.

(** ** Computations over a scope *)

(** What a method runs against: the receiver, the next free heap address,
    and the log so far. *)
Record state : Type := mkState {
  self : scope;
  next_addr : nat;
  trace : list Event
}.

Inductive outcome (A : Type) : Type :=
| Returned (a : A)
| Panicked (msg : string).
Arguments Returned {A} a.
Arguments Panicked {A} msg.

Definition M (A : Type) : Type := state → outcome A * state.

Definition ret {A} (a : A) : M A := λ st, (Returned a, st).

Definition bind {A B} (m : M A) (k : A → M B) : M B :=
  λ st, match m st with
        | (Returned a, st1) => k a st1
        | (Panicked msg, st1) => (Panicked msg, st1)
        end.

Global Instance M_ret : MRet M := @ret.
Global Instance M_bind : MBind M := λ A B k m, bind m k.

Definition panic {A} (msg : string) : M A := λ st, (Panicked msg, st).

(** [defer d] before [body]: [d] runs when [body] returns and also when it
    panics. *)
Definition defer {A} (d : M unit) (body : M A) : M A :=
  λ st, let '(o, st1) := body st in (o, snd (d st1)).

Definition get_scope : M scope := λ st, (Returned (self st), st).

Definition modify_scope (f : scope → scope) : M unit :=
  λ st, (Returned tt, mkState (f (self st)) (next_addr st) (trace st)).

Definition emit (e : Event) : M unit :=
  λ st, (Returned tt, mkState (self st) (next_addr st) (trace st ++ [e])).

(** A heap allocation: the address handed out is fresh. *)
Definition alloc : M nat :=
  λ st, (Returned (next_addr st),
         mkState (self st) (S (next_addr st)) (trace st)).

(** Lifting of a computation that does not touch the state. *)
Definition lift {A} (o : outcome A) : M A := λ st, (o, st).

(** Allocation of the metric objects (their constructors live in other
    files of the package; scope.go passes them the arguments kept here). *)
Definition newCounter (cachedCount : option CachedMetric) : M counter :=
  a ← alloc; mret (mkCounter a cachedCount).

Definition newGauge (cachedGauge : option CachedMetric) : M gauge :=
  a ← alloc; mret (mkGauge a cachedGauge).

Definition newTimer (name : string) (tags : tagmap)
    (r : option StatsReporter) (cachedTimer : option CachedMetric) : M timer :=
  a ← alloc; mret (mkTimer a name tags r cachedTimer).

Definition newBucketStorage (htype : histogramType) (b : option Buckets)
    (cachedHistogram : option CachedHistogram) : M bucketStorage :=
  a ← alloc; mret (mkBucketStorage a htype b cachedHistogram).

Definition newHistogram (htype : histogramType) (name : string)
    (tags : tagmap) (r : option StatsReporter) (storage : bucketStorage)
    : M histogram :=
  a ← alloc; mret (mkHistogram a htype name tags r storage).

(** Calls on the cached reporter. *)
Definition AllocateCounter (c : CachedStatsReporter) (name : string)
    (tags : tagmap) : M CachedMetric :=
  emit (EvAllocateCounter c name tags);; mret (mkCachedMetric c name tags).

Definition AllocateGauge (c : CachedStatsReporter) (name : string)
    (tags : tagmap) : M CachedMetric :=
  emit (EvAllocateGauge c name tags);; mret (mkCachedMetric c name tags).

Definition AllocateTimer (c : CachedStatsReporter) (name : string)
    (tags : tagmap) : M CachedMetric :=
  emit (EvAllocateTimer c name tags);; mret (mkCachedMetric c name tags).

Definition AllocateHistogram (c : CachedStatsReporter) (name : string)
    (tags : tagmap) (b : option Buckets) : M CachedHistogram :=
  emit (EvAllocateHistogram c name tags b);;
  mret (mkCachedHistogram c name tags b).

(** A [for ... range] loop over a slice whose body is a call. *)
Definition range_do {A} (l : list A) (body : A → M unit) : M unit :=
  foldr (λ x rest, body x;; rest) (mret tt) l.

(** ** Package identity: the hash accumulator

    [internal/identity] is not part of scope.go; the accumulator is taken
    as an interface, and everything below holds for each implementation. *)
Module identity.
Class Accumulator : Type := {
  carrier : Type;
  NewAccumulator : carrier;
  AddUint64 : carrier → Z → carrier;
  Value : carrier → Z
}.

(** An implementation to evaluate examples with: a seeded additive fold
    over uint64. *)
Definition additive_fold : Accumulator :=
  {| carrier := Z;
     NewAccumulator := 23;
     AddUint64 := λ a u, (a + (u * 31) mod two64) mod two64;
     Value := λ a, a |}%Z.
End identity.

(** ** Iteration over a Go map

    The order in which [for k, v := range m] visits a map is left open by
    Go.  A [MapRange] is one way of picking it: each entry is visited
    once, in some order. *)
Class MapRange : Type := {
  go_range : ∀ {V : Type}, gmap string V → list (string * V);
  go_range_perm : ∀ (V : Type) (m : gmap string V), go_range m ≡ₚ map_to_list m
}.

(** Two iteration orders that differ on maps with two or more entries. *)
Definition range_ascending : MapRange :=
  {| go_range := λ V m, map_to_list m;
     go_range_perm := λ V m, reflexivity (map_to_list m) |}.

Definition range_descending : MapRange :=
  {| go_range := λ V m, reverse (map_to_list m);
     go_range_perm := λ V m, reverse_Permutation (map_to_list m) |}.

(** ** scope.go *)

(** The type assertion [buckets.(ValueBuckets)] of the else branch panics
    on a bucket set of another type and on the nil interface; the run-time
    message names the dynamic type, which is left out here. *)
Definition getBucketsIdentity `{!identity.Accumulator}
    (buckets : option Buckets) : outcome Z :=
  let acc := identity.NewAccumulator in
  match buckets with
  | Some (DurationBuckets dbuckets) =>
      let acc :=
        foldl (λ acc dur, identity.AddUint64 acc (uint64_of_Duration dur))
          acc dbuckets in
      Returned (identity.Value acc)
  | Some (ValueBuckets vbuckets) =>
      let acc :=
        foldl (λ acc val, identity.AddUint64 acc (Float64bits val))
          acc vbuckets in
      Returned (identity.Value acc)
  | Some (OtherBuckets _) =>
      Panicked "interface conversion: tally.Buckets is not tally.ValueBuckets"
  | None =>
      Panicked "interface conversion: interface is nil, not tally.ValueBuckets"
  end.

Definition fullyQualifiedName (s : scope) (name : string) : string :=
  if (String.length (prefix s) =? 0)%nat then name
  else prefix s +:+ separator s +:+ name.

Definition copyAndSanitizeMap `{!MapRange} (s : scope) (tags : tagmap)
    : tagmap :=
  let result : gmap string string := ∅ in
  Some (foldl (λ result kv,
                 <[Key (sanitizer s) kv.1 := Value (sanitizer s) kv.2]> result)
          result (go_range (tag_entries tags))).

Definition mergeRightTags `{!MapRange} (tagsLeft tagsRight : tagmap)
    : tagmap :=
  match tagsLeft, tagsRight with
  | None, None => None
  | _, _ =>
      if (tag_len tagsRight =? 0)%nat then tagsLeft
      else if (tag_len tagsLeft =? 0)%nat then tagsRight
      else
        let result : gmap string string := ∅ in
        let result :=
          foldl (λ result kv, <[kv.1 := kv.2]> result) result
            (go_range (tag_entries tagsLeft)) in
        let result :=
          foldl (λ result kv, <[kv.1 := kv.2]> result) result
            (go_range (tag_entries tagsRight)) in
        Some result
  end.

(** The scope [newRootScope] returns, as the state it starts in: nothing
    allocated yet, and the log holding the start of the reporting loop
    when [interval > 0]. *)
Definition newRootScope `{!MapRange} (opts : ScopeOptions) (interval : Z)
    : state :=
  let sanitizer :=
    match SanitizeOptionsOf opts with
    | Some o => NewSanitizer o
    | None => NewNoOpSanitizer
    end in
  let opts_Tags :=
    match Tags opts with None => Some ∅ | Some t => Some t end in
  let opts_Separator :=
    if String.eqb (Separator opts) "" then DefaultSeparator
    else Separator opts in
  let baseReporter :=
    match Reporter opts with
    | Some r => Some (BaseOfReporter r)
    | None =>
        match CachedReporter opts with
        | Some c => Some (BaseOfCachedReporter c)
        | None => None
        end
    end in
  let opts_DefaultBuckets :=
    match DefaultBuckets opts with
    | None => defaultScopeBuckets
    | Some b => if (Len b <? 1)%Z then defaultScopeBuckets else b
    end in
  let s :=
    {| separator := Name sanitizer opts_Separator;
       prefix := Name sanitizer (Prefix opts);
       tags := None;
       reporter := Reporter opts;
       cachedReporter := CachedReporter opts;
       baseReporter := baseReporter;
       defaultBuckets := Some opts_DefaultBuckets;
       sanitizer := sanitizer;
       status := {| closed := false; quit := ChanOpen |};
       counters := ∅; countersSlice := [];
       gauges := ∅; gaugesSlice := [];
       histograms := ∅; histogramsSlice := [];
       timers := ∅;
       bucketCache := ∅ |} in
  let s := set_tags (copyAndSanitizeMap s opts_Tags) s in
  {| self := s;
     next_addr := 0;
     trace := if (0 <? interval)%Z then [EvGoReportLoop interval] else [] |}.

Definition NewTestScope `{!MapRange} (prefix : string) (tags : tagmap)
    : state :=
  newRootScope (mkScopeOptions tags prefix None None "" None None) 0.

(** [report] sweeps the three name-to-instance maps. *)
Definition report `{!MapRange} (r : StatsReporter) : M unit :=
  s ← get_scope;
  emit (EvRLock cm);;
  range_do (go_range (counters s))
    (λ kv, emit (EvCounterReport kv.2 (fullyQualifiedName s kv.1) (tags s) r));;
  emit (EvRUnlock cm);;
  emit (EvRLock gm);;
  range_do (go_range (gauges s))
    (λ kv, emit (EvGaugeReport kv.2 (fullyQualifiedName s kv.1) (tags s) r));;
  emit (EvRUnlock gm);;
  emit (EvRLock hm);;
  range_do (go_range (histograms s))
    (λ kv,
       emit (EvHistogramReport kv.2 (fullyQualifiedName s kv.1) (tags s) r));;
  emit (EvRUnlock hm).

(** [cachedReport] sweeps the three slices. *)
Definition cachedReport : M unit :=
  s ← get_scope;
  emit (EvRLock cm);;
  range_do (countersSlice s) (λ counter, emit (EvCounterCachedReport counter));;
  emit (EvRUnlock cm);;
  emit (EvRLock gm);;
  range_do (gaugesSlice s) (λ gauge, emit (EvGaugeCachedReport gauge));;
  emit (EvRUnlock gm);;
  emit (EvRLock hm);;
  range_do (histogramsSlice s)
    (λ histogram, emit (EvHistogramCachedReport histogram));;
  emit (EvRUnlock hm).

(** The registry belongs to another file: its fan-out calls are logged. *)
Definition reportRegistryWithLock : M unit :=
  s ← get_scope;
  match reporter s with
  | Some r => emit (EvRegistryReport r);; emit (EvReporterFlush r)
  | None =>
      match cachedReporter s with
      | Some c => emit EvRegistryCachedReport;; emit (EvCachedReporterFlush c)
      | None => mret tt
      end
  end.

(** One tick of [reportLoop]. *)
Definition reportLoopRun : M unit :=
  emit (EvRLock status_mu);;
  defer (emit (EvRUnlock status_mu))
    (s ← get_scope;
     if closed (status s) then mret tt else reportRegistryWithLock).

(** The lookups [s.counter], [s.gauge], [s.timer], [s.histogram]. *)
Definition scope_counter (sanitizedName : string) : M (option counter) :=
  emit (EvRLock cm);;
  defer (emit (EvRUnlock cm))
    (s ← get_scope; mret (counters s !! sanitizedName)).

Definition scope_gauge (name : string) : M (option gauge) :=
  emit (EvRLock gm);;
  defer (emit (EvRUnlock gm))
    (s ← get_scope; mret (gauges s !! name)).

Definition scope_timer (sanitizedName : string) : M (option timer) :=
  emit (EvRLock tm);;
  defer (emit (EvRUnlock tm))
    (s ← get_scope; mret (timers s !! sanitizedName)).

Definition scope_histogram (sanitizedName : string) : M (option histogram) :=
  emit (EvRLock hm);;
  defer (emit (EvRUnlock hm))
    (s ← get_scope; mret (histograms s !! sanitizedName)).

Definition Counter (name : string) : M counter :=
  s ← get_scope;
  let name := Name (sanitizer s) name in
  found ← scope_counter name;
  match found with
  | Some c => mret c
  | None =>
      emit (EvLock cm);;
      defer (emit (EvUnlock cm))
        (s ← get_scope;
         match counters s !! name with
         | Some c => mret c
         | None =>
             cachedCounter ←
               match cachedReporter s with
               | Some cr =>
                   h ← AllocateCounter cr (fullyQualifiedName s name) (tags s);
                   mret (Some h)
               | None => mret None
               end;
             c ← newCounter cachedCounter;
             modify_scope
               (λ s, set_counters (<[name := c]> (counters s))
                       (countersSlice s ++ [c]) s);;
             mret c
         end)
  end.

Definition Gauge (name : string) : M gauge :=
  s ← get_scope;
  let name := Name (sanitizer s) name in
  found ← scope_gauge name;
  match found with
  | Some g => mret g
  | None =>
      emit (EvLock gm);;
      defer (emit (EvUnlock gm))
        (s ← get_scope;
         match gauges s !! name with
         | Some g => mret g
         | None =>
             cachedGauge ←
               match cachedReporter s with
               | Some cr =>
                   h ← AllocateGauge cr (fullyQualifiedName s name) (tags s);
                   mret (Some h)
               | None => mret None
               end;
             g ← newGauge cachedGauge;
             modify_scope
               (λ s, set_gauges (<[name := g]> (gauges s))
                       (gaugesSlice s ++ [g]) s);;
             mret g
         end)
  end.

Definition Timer (name : string) : M timer :=
  s ← get_scope;
  let name := Name (sanitizer s) name in
  found ← scope_timer name;
  match found with
  | Some t => mret t
  | None =>
      emit (EvLock tm);;
      defer (emit (EvUnlock tm))
        (s ← get_scope;
         match timers s !! name with
         | Some t => mret t
         | None =>
             cachedTimer ←
               match cachedReporter s with
               | Some cr =>
                   h ← AllocateTimer cr (fullyQualifiedName s name) (tags s);
                   mret (Some h)
               | None => mret None
               end;
             t ← newTimer (fullyQualifiedName s name) (tags s) (reporter s)
                   cachedTimer;
             modify_scope (λ s, set_timers (<[name := t]> (timers s)) s);;
             mret t
         end)
  end.

Definition Histogram `{!identity.Accumulator} (name : string)
    (b : option Buckets) : M histogram :=
  s ← get_scope;
  let name := Name (sanitizer s) name in
  found ← scope_histogram name;
  match found with
  | Some h => mret h
  | None =>
      let b := match b with None => defaultBuckets s | Some _ => b end in
      let htype :=
        match b with
        | Some (DurationBuckets _) => durationHistogramType
        | _ => valueHistogramType
        end in
      emit (EvLock hm);;
      defer (emit (EvUnlock hm))
        (s ← get_scope;
         match histograms s !! name with
         | Some h => mret h
         | None =>
             cachedHistogram ←
               match cachedReporter s with
               | Some cr =>
                   h ← AllocateHistogram cr (fullyQualifiedName s name)
                         (tags s) b;
                   mret (Some h)
               | None => mret None
               end;
             bid ← lift (getBucketsIdentity b);
             storage ←
               match bucketCache s !! bid with
               | Some storage => mret storage
               | None =>
                   storage ← newBucketStorage htype b cachedHistogram;
                   modify_scope
                     (λ s, set_bucketCache (<[bid := storage]> (bucketCache s))
                             s);;
                   mret storage
               end;
             h ← newHistogram htype (fullyQualifiedName s name) (tags s)
                   (reporter s) storage;
             modify_scope
               (λ s, set_histograms (<[name := h]> (histograms s))
                       (histogramsSlice s ++ [h]) s);;
             mret h
         end)
  end.

(** Modelled from the spec: [scopeRegistry.Subscope], whose file
    (scope_registry.go) is not among the sources.  This is the child the
    registry constructs for a (prefix, tags) identity it does not hold
    yet: it inherits the parent's reporters, separator, sanitizer and
    default buckets, takes the given prefix and the parent's tags
    overridden by the given ones, and starts with no metrics and a bucket
    cache of its own.  Returning an already registered scope of the same
    identity is not modelled; its prefix and separator are the same. *)
Definition registry_Subscope `{!MapRange} (parent : scope)
    (child_prefix : string) (overrides : tagmap) : scope :=
  {| separator := separator parent;
     prefix := child_prefix;
     tags := mergeRightTags (tags parent) overrides;
     reporter := reporter parent;
     cachedReporter := cachedReporter parent;
     baseReporter := baseReporter parent;
     defaultBuckets := defaultBuckets parent;
     sanitizer := sanitizer parent;
     status := {| closed := false; quit := ChanNil |};
     counters := ∅; countersSlice := [];
     gauges := ∅; gaugesSlice := [];
     histograms := ∅; histogramsSlice := [];
     timers := ∅;
     bucketCache := ∅ |}.

Definition subscope `{!MapRange} (s : scope) (prefix : string)
    (tags : tagmap) : scope :=
  registry_Subscope s prefix tags.


Definition SubScope `{!MapRange} (s : scope) (prefix : string) : scope :=
  let prefix := Name (sanitizer s) prefix in
  subscope s (fullyQualifiedName s prefix) None.

(** The method [Capabilities]. *)
Definition scope_Capabilities (s : scope) : Capabilities :=
  match baseReporter s with
  | None => capabilitiesNone
  | Some b => base_capabilities b
  end.

(** The built-in [close(ch)]. *)
Definition close_quit : M unit :=
  s ← get_scope;
  match quit (status s) with
  | ChanOpen =>
      modify_scope
        (λ s, set_status {| closed := closed (status s); quit := ChanClosed |}
                s);;
      emit EvCloseQuit
  | ChanClosed => panic "close of closed channel"
  | ChanNil => panic "close of nil channel"
  end.

Definition Close : M error :=
  emit (EvLock status_mu);;
  defer (emit (EvUnlock status_mu))
    (s ← get_scope;
     if closed (status s) then mret None
     else
       modify_scope
         (λ s, set_status {| closed := true; quit := quit (status s) |} s);;
       close_quit;;
       reportRegistryWithLock;;
       s ← get_scope;
       match baseReporter s with
       | Some b =>
           match base_closer b with
           | Some e => emit (EvCloserClose b);; mret e
           | None => mret None
           end
       | None => mret None
       end).

(** ** Sequences of calls on one scope *)

(** The calls a scope receives: registrations from application code,
    ticks of the reporting loop, sweeps from the registry, and [Close]. *)
Inductive Op : Type :=
| OpCounter (name : string)
| OpGauge (name : string)
| OpTimer (name : string)
| OpHistogram (name : string) (b : option Buckets)
| OpReport (r : StatsReporter)
| OpCachedReport
| OpReportLoopRun
| OpClose.

(** The state a call leaves behind, whether it returned or panicked. *)
Definition run_op `{!identity.Accumulator} `{!MapRange} (op : Op)
    (st : state) : state :=
  match op with
  | OpCounter name => (Counter name st).2
  | OpGauge name => (Gauge name st).2
  | OpTimer name => (Timer name st).2
  | OpHistogram name b => (Histogram name b st).2
  | OpReport r => (report r st).2
  | OpCachedReport => (cachedReport st).2
  | OpReportLoopRun => (reportLoopRun st).2
  | OpClose => (Close st).2
  end.

Definition run `{!identity.Accumulator} `{!MapRange} (ops : list Op)
    (st : state) : state :=
  foldl (λ st op, run_op op st) st ops.

(** ** Descriptions used in the statements *)

(** The state [st] with [evs] appended to its log and nothing else
    changed. *)
Definition logged (st : state) (evs : list Event) : state :=
  mkState (self st) (next_addr st) (trace st ++ evs).

(** The handle and the logged call of a registration's visit to the
    cached reporter, when the scope has one. *)
Definition cached_handle (s : scope) (name : string) : option CachedMetric :=
  match cachedReporter s with
  | Some cr => Some (mkCachedMetric cr (fullyQualifiedName s name) (tags s))
  | None => None
  end.

Definition cached_call (ev : CachedStatsReporter → string → tagmap → Event)
    (s : scope) (name : string) : list Event :=
  match cachedReporter s with
  | Some cr => [ev cr (fullyQualifiedName s name) (tags s)]
  | None => []
  end.

(** The buckets a histogram registration works with, and its type
    discriminant. *)
Definition effective_buckets (s : scope) (b : option Buckets)
    : option Buckets :=
  match b with None => defaultBuckets s | Some _ => b end.

Definition htype_of (b : option Buckets) : histogramType :=
  match b with
  | Some (DurationBuckets _) => durationHistogramType
  | _ => valueHistogramType
  end.

(** The 64-bit words [getBucketsIdentity] feeds to the accumulator. *)
Definition bucket_words (b : Buckets) : option (list Z) :=
  match b with
  | DurationBuckets ds => Some (uint64_of_Duration <$> ds)
  | ValueBuckets vs => Some (Float64bits <$> vs)
  | OtherBuckets _ => None
  end.

(** The events of one reporting pass of [reportRegistryWithLock]. *)
Definition report_pass (s : scope) : list Event :=
  match reporter s with
  | Some r => [EvRegistryReport r; EvReporterFlush r]
  | None =>
      match cachedReporter s with
      | Some c => [EvRegistryCachedReport; EvCachedReporterFlush c]
      | None => []
      end
  end.

(** Kinds of events, for counting them in a log. *)
Definition is_report (e : Event) : bool :=
  match e with
  | EvRegistryReport _ | EvRegistryCachedReport => true
  | _ => false
  end.

Definition is_flush (e : Event) : bool :=
  match e with
  | EvReporterFlush _ | EvCachedReporterFlush _ => true
  | _ => false
  end.

Definition is_quit_signal (e : Event) : bool :=
  match e with EvCloseQuit => true | _ => false end.

Definition is_closer_call (e : Event) : bool :=
  match e with EvCloserClose _ => true | _ => false end.

(** The number of events of a kind in a log. *)
Definition count (p : Event → bool) (evs : list Event) : nat :=
  length (List.filter p evs).

(** The same for a histogram registration. *)
Definition cached_histogram_handle (s : scope) (name : string)
    (b : option Buckets) : option CachedHistogram :=
  match cachedReporter s with
  | Some cr =>
      Some (mkCachedHistogram cr (fullyQualifiedName s name) (tags s) b)
  | None => None
  end.

Definition cached_histogram_call (s : scope) (name : string)
    (b : option Buckets) : list Event :=
  match cachedReporter s with
  | Some cr => [EvAllocateHistogram cr (fullyQualifiedName s name) (tags s) b]
  | None => []
  end.

(** The calls of one [report] sweep and of one [cachedReport] sweep. *)
Definition report_events `{!MapRange} (s : scope) (r : StatsReporter)
    : list Event :=
  [EvRLock cm]
    ++ ((λ kv, EvCounterReport kv.2 (fullyQualifiedName s kv.1) (tags s) r)
          <$> go_range (counters s))
    ++ [EvRUnlock cm; EvRLock gm]
    ++ ((λ kv, EvGaugeReport kv.2 (fullyQualifiedName s kv.1) (tags s) r)
          <$> go_range (gauges s))
    ++ [EvRUnlock gm; EvRLock hm]
    ++ ((λ kv, EvHistogramReport kv.2 (fullyQualifiedName s kv.1) (tags s) r)
          <$> go_range (histograms s))
    ++ [EvRUnlock hm].

Definition cachedReport_events (s : scope) : list Event :=
  [EvRLock cm]
    ++ (EvCounterCachedReport <$> countersSlice s)
    ++ [EvRUnlock cm; EvRLock gm]
    ++ (EvGaugeCachedReport <$> gaugesSlice s)
    ++ [EvRUnlock gm; EvRLock hm]
    ++ (EvHistogramCachedReport <$> histogramsSlice s)
    ++ [EvRUnlock hm].

(** What [Close] returns once it gets to the closer, and the call it logs. *)
Definition closer_result (s : scope) : error :=
  match baseReporter s with
  | Some b => match base_closer b with Some e => e | None => None end
  | None => None
  end.

Definition closer_call (s : scope) : list Event :=
  match baseReporter s with
  | Some b => match base_closer b with Some _ => [EvCloserClose b] | None => [] end
  | None => []
  end.

(** The scope with its closed flag set and its quit channel in state [q]. *)
Definition mark_closed (q : chan) (s : scope) : scope :=
  set_status {| closed := true; quit := q |} s.

(** The fields set at construction. *)
Definition same_config (s s' : scope) : Prop :=
  separator s' = separator s ∧ prefix s' = prefix s ∧ tags s' = tags s ∧
  reporter s' = reporter s ∧ cachedReporter s' = cachedReporter s ∧
  baseReporter s' = baseReporter s ∧ defaultBuckets s' = defaultBuckets s ∧
  sanitizer s' = sanitizer s.

(** A root scope's quit channel is open until [Close] closes it, and the
    log holds one quit signal once the scope is closed and none before. *)
Definition status_inv (st : state) : Prop :=
  let s := self st in
  quit (status s) = (if closed (status s) then ChanClosed else ChanOpen) ∧
  count is_quit_signal (trace st) = (if closed (status s) then 1 else 0).

(** The calls that are a [Close]. *)
Definition is_close (op : Op) : bool :=
  match op with OpClose => true | _ => false end.

(** Whether the scope has a push or a cached reporter. *)
Definition has_reporter (s : scope) : bool :=
  match reporter s, cachedReporter s with
  | None, None => false
  | _, _ => true
  end.

(** Events of the cached reporting path. *)
Definition is_cached_pass (e : Event) : bool :=
  match e with
  | EvRegistryCachedReport | EvCachedReporterFlush _ => true
  | _ => false
  end.

(** The events a call added to the log. *)
Definition added (st st' : state) : list Event :=
  drop (length (trace st)) (trace st').

(** The state in which [s] is the receiver, on the heap and log of [st]. *)
Definition on_scope (s : scope) (st : state) : state :=
  mkState s (next_addr st) (trace st).

(** What a scope keeps for one kind of metric: the slice lists the
    instances of the map, each once; the instances are distinct objects;
    and their addresses have been handed out. *)
Definition kind_inv {A} (addr : A → nat) (n : nat) (m : gmap string A)
    (l : list A) : Prop :=
  l ≡ₚ (map_to_list m).*2 ∧ NoDup (addr <$> l) ∧ Forall (λ x, addr x < n) l.

(** The four kinds of a scope, timers by the values of their map. *)
Definition metrics_inv (st : state) : Prop :=
  let s := self st in
  let n := next_addr st in
  kind_inv counter_addr n (counters s) (countersSlice s) ∧
  kind_inv gauge_addr n (gauges s) (gaugesSlice s) ∧
  kind_inv histogram_addr n (histograms s) (histogramsSlice s) ∧
  kind_inv timer_addr n (timers s) (map_to_list (timers s)).*2.

(** The scope [s] with no metric registered: the state of its four maps
    and three slices when a constructor returns it. *)
Definition unregistered (s : scope) : scope :=
  set_counters ∅ [] (set_gauges ∅ [] (set_histograms ∅ [] (set_timers ∅ s))).

(** An instance of any kind, and the address of its object. *)
Inductive instance : Type :=
| ACounter (c : counter)
| AGauge (g : gauge)
| ATimer (t : timer)
| AHistogram (h : histogram).

Definition instance_addr (i : instance) : nat :=
  match i with
  | ACounter c => counter_addr c
  | AGauge g => gauge_addr g
  | ATimer t => timer_addr t
  | AHistogram h => histogram_addr h
  end.

(** The outcome of a call, with the returned value wrapped. *)
Definition outcome_map {A B} (f : A → B) (o : outcome A) : outcome B :=
  match o with
  | Returned a => Returned (f a)
  | Panicked msg => Panicked msg
  end.

(** The registration calls: what the call returns and the state it leaves.
    The other calls register nothing. *)
Definition register `{!identity.Accumulator} (op : Op) (st : state)
    : option (outcome instance * state) :=
  match op with
  | OpCounter name =>
      Some (outcome_map ACounter (Counter name st).1, (Counter name st).2)
  | OpGauge name =>
      Some (outcome_map AGauge (Gauge name st).1, (Gauge name st).2)
  | OpTimer name =>
      Some (outcome_map ATimer (Timer name st).1, (Timer name st).2)
  | OpHistogram name b =>
      Some (outcome_map AHistogram (Histogram name b st).1,
            (Histogram name b st).2)
  | _ => None
  end.

(** The instance a scope holds under the sanitized name of a registration
    call, in the map of the call's kind. *)
Definition registered (s : scope) (op : Op) : option instance :=
  match op with
  | OpCounter name => ACounter <$> counters s !! Name (sanitizer s) name
  | OpGauge name => AGauge <$> gauges s !! Name (sanitizer s) name
  | OpTimer name => ATimer <$> timers s !! Name (sanitizer s) name
  | OpHistogram name _ => AHistogram <$> histograms s !! Name (sanitizer s) name
  | _ => None
  end.

(** The mutex of the call's kind. *)
Definition mutex_of (op : Op) : Mutex :=
  match op with
  | OpCounter _ => cm
  | OpGauge _ => gm
  | OpTimer _ => tm
  | OpHistogram _ _ => hm
  | _ => status_mu
  end.

(** Storage objects of the cache have been allocated, and two keys never
    hold the same object. *)
Definition cache_inv (st : state) : Prop :=
  let cache := bucketCache (self st) in
  (∀ bid x, cache !! bid = Some x → storage_addr x < next_addr st) ∧
  (∀ bid1 bid2 x1 x2,
     cache !! bid1 = Some x1 → cache !! bid2 = Some x2 →
     storage_addr x1 = storage_addr x2 → bid1 = bid2).

(** Two histograms of the root scope used in the examples below: one
    over the duration bucket [0ns], one over the value bucket [+0.0]. *)
Definition example_root : state :=
  @newRootScope range_ascending
    (mkScopeOptions None "svc" None None "" None None) 0.

Definition example_duration_call : outcome histogram * state :=
  @Histogram identity.additive_fold "a" (Some (DurationBuckets [0%Z]))
    example_root.

Definition example_value_call : outcome histogram * state :=
  @Histogram identity.additive_fold "b" (Some (ValueBuckets [mkFloat64 0]))
    example_duration_call.2.

(** The histogram a call returned (a placeholder when it panicked). *)
Definition returned_histogram (o : outcome histogram) : histogram :=
  match o with
  | Returned h => h
  | Panicked _ =>
      mkHistogram 0 valueHistogramType "" None None
        (mkBucketStorage 0 valueHistogramType None None)
  end.



(** ** Descriptions used in the further properties *)

(** Calls a scope makes on its own reporters, on the registry's fan-out
    or on the closer. *)
Definition is_reporter_call (e : Event) : bool :=
  match e with
  | EvRegistryReport _ | EvReporterFlush _ | EvRegistryCachedReport
  | EvCachedReporterFlush _ | EvCloserClose _
  | EvAllocateCounter _ _ _ | EvAllocateGauge _ _ _
  | EvAllocateTimer _ _ _ | EvAllocateHistogram _ _ _ _ => true
  | _ => false
  end.

(** Events of the push reporting path. *)
Definition is_push_pass (e : Event) : bool :=
  match e with
  | EvRegistryReport _ | EvReporterFlush _ => true
  | _ => false
  end.

(** The reporting passes a sequence of calls asks for: one for each tick
    before the first [Close], and one for that [Close]. *)
Fixpoint passes (ops : list Op) : nat :=
  match ops with
  | [] => 0
  | OpClose :: _ => 1
  | OpReportLoopRun :: rest => S (passes rest)
  | _ :: rest => passes rest
  end.





(** The calls of each [Allocate...] method of the cached reporter. *)
Definition is_AllocateCounter (e : Event) : bool :=
  match e with EvAllocateCounter _ _ _ => true | _ => false end.

Definition is_AllocateGauge (e : Event) : bool :=
  match e with EvAllocateGauge _ _ _ => true | _ => false end.

Definition is_AllocateTimer (e : Event) : bool :=
  match e with EvAllocateTimer _ _ _ => true | _ => false end.

Definition is_AllocateHistogram (e : Event) : bool :=
  match e with EvAllocateHistogram _ _ _ _ => true | _ => false end.

(** What every registered instance carries: a timer and a histogram the
    fully-qualified name of their key, the tags and the push reporter of
    the scope; a counter, a gauge and a timer the handle the cached
    reporter of the scope gave for that name, when the scope has one. *)
Definition named_inv (s : scope) : Prop :=
  (∀ k c, counters s !! k = Some c →
          counter_cachedCount c = cached_handle s k) ∧
  (∀ k g, gauges s !! k = Some g →
          gauge_cachedGauge g = cached_handle s k) ∧
  (∀ k t, timers s !! k = Some t →
          timer_name t = fullyQualifiedName s k ∧ timer_tags t = tags s ∧
          timer_reporter t = reporter s ∧
          timer_cachedTimer t = cached_handle s k) ∧
  (∀ k h, histograms s !! k = Some h →
          histogram_name h = fullyQualifiedName s k ∧
          histogram_tags h = tags s ∧ histogram_reporter h = reporter s).

(** What the bucket cache keeps: an entry sits under the identity of the
    buckets it was built for and is tagged with their type, it has a
    cached handle exactly when the scope has a cached reporter, and the
    storage of every registered histogram is an entry of the cache. *)
Definition cache_keys_inv `{!identity.Accumulator} (s : scope) : Prop :=
  (∀ bid x, bucketCache s !! bid = Some x →
            getBucketsIdentity (storage_buckets x) = Returned bid ∧
            storage_htype x = htype_of (storage_buckets x) ∧
            (storage_cachedHistogram x = None ↔ cachedReporter s = None)) ∧
  (∀ k h, histograms s !! k = Some h →
          ∃ bid, bucketCache s !! bid = Some (histogram_storage h)).

(** The default buckets [newRootScope] settles on. *)
Definition root_defaultBuckets (opts : ScopeOptions) : Buckets :=
  match DefaultBuckets opts with
  | None => defaultScopeBuckets
  | Some b => if (Len b <? 1)%Z then defaultScopeBuckets else b
  end.

(** * Proofs *)

(** ** Each method, as an equation *)

Ltac run_method :=
  repeat (cbn -[lookup insert] in *;
          unfold mbind, M_bind, bind, mret, M_ret, ret, defer, emit,
            get_scope, modify_scope, alloc, lift, panic, logged in *);
  cbn -[lookup insert] in *.

Lemma Counter_spec (st : state) (name : string) :
  let s := self st in
  let key := Name (sanitizer s) name in
  Counter name st =
  match counters s !! key with
  | Some c => (Returned c, logged st [EvRLock cm; EvRUnlock cm])
  | None =>
      let c := mkCounter (next_addr st) (cached_handle s key) in
      (Returned c,
       mkState
         (set_counters (<[key := c]> (counters s)) (countersSlice s ++ [c]) s)
         (S (next_addr st))
         (trace st ++ [EvRLock cm; EvRUnlock cm; EvLock cm]
            ++ cached_call EvAllocateCounter s key ++ [EvUnlock cm]))
  end.
Proof.
  destruct st as [s n tr]. cbn -[lookup insert].
  unfold Counter, scope_counter, newCounter, AllocateCounter, cached_handle,
    cached_call.
  run_method.
  destruct (counters s !! Name (sanitizer s) name) as [c|] eqn:Hc.
  - run_method. by rewrite <- !app_assoc.
  - run_method. rewrite Hc. destruct (cachedReporter s); run_method;
      by rewrite <- !app_assoc.
Qed.

Lemma Gauge_spec (st : state) (name : string) :
  let s := self st in
  let key := Name (sanitizer s) name in
  Gauge name st =
  match gauges s !! key with
  | Some g => (Returned g, logged st [EvRLock gm; EvRUnlock gm])
  | None =>
      let g := mkGauge (next_addr st) (cached_handle s key) in
      (Returned g,
       mkState
         (set_gauges (<[key := g]> (gauges s)) (gaugesSlice s ++ [g]) s)
         (S (next_addr st))
         (trace st ++ [EvRLock gm; EvRUnlock gm; EvLock gm]
            ++ cached_call EvAllocateGauge s key ++ [EvUnlock gm]))
  end.
Proof.
  destruct st as [s n tr]. cbn -[lookup insert].
  unfold Gauge, scope_gauge, newGauge, AllocateGauge, cached_handle,
    cached_call.
  run_method.
  destruct (gauges s !! Name (sanitizer s) name) as [g|] eqn:Hg.
  - run_method. by rewrite <- !app_assoc.
  - run_method. rewrite Hg. destruct (cachedReporter s); run_method;
      by rewrite <- !app_assoc.
Qed.

Lemma Timer_spec (st : state) (name : string) :
  let s := self st in
  let key := Name (sanitizer s) name in
  Timer name st =
  match timers s !! key with
  | Some t => (Returned t, logged st [EvRLock tm; EvRUnlock tm])
  | None =>
      let t :=
        mkTimer (next_addr st) (fullyQualifiedName s key) (tags s)
          (reporter s) (cached_handle s key) in
      (Returned t,
       mkState
         (set_timers (<[key := t]> (timers s)) s)
         (S (next_addr st))
         (trace st ++ [EvRLock tm; EvRUnlock tm; EvLock tm]
            ++ cached_call EvAllocateTimer s key ++ [EvUnlock tm]))
  end.
Proof.
  destruct st as [s n tr]. cbn -[lookup insert].
  unfold Timer, scope_timer, newTimer, AllocateTimer, cached_handle,
    cached_call.
  run_method.
  destruct (timers s !! Name (sanitizer s) name) as [t|] eqn:Ht.
  - run_method. by rewrite <- !app_assoc.
  - run_method. rewrite Ht. destruct (cachedReporter s); run_method;
      by rewrite <- !app_assoc.
Qed.

Lemma Histogram_spec `{!identity.Accumulator} (st : state) (name : string)
    (b : option Buckets) :
  let s := self st in
  let key := Name (sanitizer s) name in
  let b' := effective_buckets s b in
  let pre :=
    trace st ++ [EvRLock hm; EvRUnlock hm; EvLock hm]
      ++ cached_histogram_call s key b' in
  Histogram name b st =
  match histograms s !! key with
  | Some h => (Returned h, logged st [EvRLock hm; EvRUnlock hm])
  | None =>
      match getBucketsIdentity b' with
      | Panicked msg =>
          (Panicked msg, mkState s (next_addr st) (pre ++ [EvUnlock hm]))
      | Returned bid =>
          match bucketCache s !! bid with
          | Some storage =>
              let h :=
                mkHistogram (next_addr st) (htype_of b')
                  (fullyQualifiedName s key) (tags s) (reporter s) storage in
              (Returned h,
               mkState
                 (set_histograms (<[key := h]> (histograms s))
                    (histogramsSlice s ++ [h]) s)
                 (S (next_addr st))
                 (pre ++ [EvUnlock hm]))
          | None =>
              let storage :=
                mkBucketStorage (next_addr st) (htype_of b') b'
                  (cached_histogram_handle s key b') in
              let h :=
                mkHistogram (S (next_addr st)) (htype_of b')
                  (fullyQualifiedName s key) (tags s) (reporter s) storage in
              (Returned h,
               mkState
                 (set_histograms (<[key := h]> (histograms s))
                    (histogramsSlice s ++ [h])
                    (set_bucketCache (<[bid := storage]> (bucketCache s)) s))
                 (S (S (next_addr st)))
                 (pre ++ [EvUnlock hm]))
          end
      end
  end.
Proof.
  destruct st as [s n tr]. cbn -[lookup insert].
  unfold Histogram, scope_histogram, newHistogram, newBucketStorage,
    AllocateHistogram, cached_histogram_handle, cached_histogram_call,
    effective_buckets, htype_of.
  run_method.
  destruct (histograms s !! Name (sanitizer s) name) as [h|] eqn:Hh.
  - run_method. by rewrite <- !app_assoc.
  - run_method. rewrite Hh.
    destruct (cachedReporter s); run_method;
      (destruct (getBucketsIdentity _) as [bid|msg]; run_method;
       [ destruct (bucketCache s !! bid); run_method | ]);
      by rewrite <- !app_assoc.
Qed.

Lemma bind_emit {A} (e : Event) (k : M A) (st : state) :
  (emit e;; k) st = k (logged st [e]).
Proof. reflexivity. Qed.

Lemma logged_logged (st : state) (e1 e2 : list Event) :
  logged (logged st e1) e2 = logged st (e1 ++ e2).
Proof. unfold logged. cbn. by rewrite <- app_assoc. Qed.

Lemma range_do_emit {A} (f : A → Event) (l : list A) (st : state) :
  range_do l (λ x, emit (f x)) st = (Returned tt, logged st (f <$> l)).
Proof.
  revert st. induction l as [|x l IH]; intros st.
  - destruct st. unfold logged. cbn. by rewrite app_nil_r.
  - unfold range_do. cbn [foldr]. rewrite bind_emit.
    fold (range_do l (λ x, emit (f x))).
    rewrite IH, logged_logged. reflexivity.
Qed.

Lemma bind_range_do_emit {A B} (f : A → Event) (l : list A) (k : M B)
    (st : state) :
  (range_do l (λ x, emit (f x));; k) st = k (logged st (f <$> l)).
Proof.
  unfold mbind, M_bind, bind. by rewrite range_do_emit.
Qed.

Lemma report_spec `{!MapRange} (r : StatsReporter) (st : state) :
  report r st = (Returned tt, logged st (report_events (self st) r)).
Proof.
  unfold report.
  change ((get_scope ≫= ?k) st) with (k (self st) st).
  cbv beta.
  rewrite !bind_emit, bind_range_do_emit.
  rewrite !bind_emit, bind_range_do_emit.
  rewrite !bind_emit, bind_range_do_emit.
  unfold emit. cbn [logged self next_addr trace].
  unfold report_events, logged.
  by rewrite <- !app_assoc.
Qed.

Lemma cachedReport_spec (st : state) :
  cachedReport st = (Returned tt, logged st (cachedReport_events (self st))).
Proof.
  unfold cachedReport.
  change ((get_scope ≫= ?k) st) with (k (self st) st).
  cbv beta.
  rewrite !bind_emit, bind_range_do_emit.
  rewrite !bind_emit, bind_range_do_emit.
  rewrite !bind_emit, bind_range_do_emit.
  unfold emit. cbn [logged self next_addr trace].
  unfold cachedReport_events, logged.
  by rewrite <- !app_assoc.
Qed.

Lemma reportRegistryWithLock_spec (st : state) :
  reportRegistryWithLock st = (Returned tt, logged st (report_pass (self st))).
Proof.
  destruct st as [s n tr].
  unfold reportRegistryWithLock, report_pass. run_method.
  destruct (reporter s); [|destruct (cachedReporter s)]; run_method;
    by rewrite <- ?app_assoc, ?app_nil_r.
Qed.

Lemma reportLoopRun_spec (st : state) :
  reportLoopRun st =
  (Returned tt,
   logged st
     ([EvRLock status_mu]
        ++ (if closed (status (self st)) then [] else report_pass (self st))
        ++ [EvRUnlock status_mu])).
Proof.
  unfold reportLoopRun. rewrite bind_emit.
  unfold defer, mbind, M_bind, bind, get_scope.
  cbn [logged self].
  destruct (closed (status (self st))).
  - unfold mret, M_ret, ret, emit, logged. cbn. by rewrite <- !app_assoc.
  - rewrite reportRegistryWithLock_spec. unfold emit, logged. cbn.
    by rewrite <- !app_assoc.
Qed.

Lemma Close_spec (st : state) :
  let s := self st in
  Close st =
  if closed (status s) then
    (Returned None, logged st [EvLock status_mu; EvUnlock status_mu])
  else
    match quit (status s) with
    | ChanOpen =>
        (Returned (closer_result s),
         mkState (mark_closed ChanClosed s) (next_addr st)
           (trace st ++ [EvLock status_mu; EvCloseQuit] ++ report_pass s
              ++ closer_call s ++ [EvUnlock status_mu]))
    | ChanClosed =>
        (Panicked "close of closed channel",
         mkState (mark_closed ChanClosed s) (next_addr st)
           (trace st ++ [EvLock status_mu; EvUnlock status_mu]))
    | ChanNil =>
        (Panicked "close of nil channel",
         mkState (mark_closed ChanNil s) (next_addr st)
           (trace st ++ [EvLock status_mu; EvUnlock status_mu]))
    end.
Proof.
  destruct st as [s n tr]. cbn [self].
  unfold Close. rewrite bind_emit.
  unfold defer, close_quit, closer_result, closer_call, mark_closed.
  unfold mbind at 1. unfold M_bind at 1. unfold bind at 1.
  unfold get_scope at 1. cbn [logged self next_addr trace].
  destruct (closed (status s)) eqn:Hc.
  - unfold mret, M_ret, ret, emit, logged. cbn. by rewrite <- !app_assoc.
  - unfold mbind, M_bind, bind, modify_scope, get_scope, panic.
    cbn -[reportRegistryWithLock].
    destruct (quit (status s)) eqn:Hq.
    + unfold emit. cbn. by rewrite <- !app_assoc.
    + unfold emit at 1. cbn [self next_addr trace].
      rewrite reportRegistryWithLock_spec.
      unfold logged, report_pass.
      cbn [self next_addr trace set_status reporter cachedReporter
           baseReporter].
      destruct (baseReporter s) as [b|]; [destruct (base_closer b)|];
        unfold emit, mret, M_ret, ret; cbn;
        by rewrite <- ?app_assoc, ?app_nil_r.
    + unfold emit. cbn. by rewrite <- !app_assoc.
Qed.

(** ** What a call leaves untouched *)

Lemma same_config_refl (s : scope) : same_config s s.
Proof. by repeat split. Qed.

Lemma same_config_trans (s1 s2 s3 : scope) :
  same_config s1 s2 → same_config s2 s3 → same_config s1 s3.
Proof.
  unfold same_config. intros (?&?&?&?&?&?&?&?) (?&?&?&?&?&?&?&?).
  repeat split; congruence.
Qed.

(** Case analysis on a call: its equation is put in place of the call and
    the lookups it branches on are split. *)
Ltac split_lookups :=
  repeat match goal with
  | |- context [match counters ?s !! ?k with _ => _ end] =>
      destruct (counters s !! k) eqn:?
  | |- context [match gauges ?s !! ?k with _ => _ end] =>
      destruct (gauges s !! k) eqn:?
  | |- context [match timers ?s !! ?k with _ => _ end] =>
      destruct (timers s !! k) eqn:?
  | |- context [match histograms ?s !! ?k with _ => _ end] =>
      destruct (histograms s !! k) eqn:?
  | |- context [match getBucketsIdentity ?b with _ => _ end] =>
      destruct (getBucketsIdentity b) eqn:?
  | |- context [match bucketCache ?s !! ?k with _ => _ end] =>
      destruct (bucketCache s !! k) eqn:?
  | |- context [if closed ?s then _ else _] =>
      destruct (closed s) eqn:?
  | |- context [match quit ?s with _ => _ end] =>
      destruct (quit s) eqn:?
  end.

Ltac op_cases op st :=
  destruct op as [name|name|name|name b|r| | |]; unfold run_op;
  [ rewrite (Counter_spec st name)
  | rewrite (Gauge_spec st name)
  | rewrite (Timer_spec st name)
  | rewrite (Histogram_spec st name b)
  | rewrite (report_spec r st)
  | rewrite (cachedReport_spec st)
  | rewrite (reportLoopRun_spec st)
  | rewrite (Close_spec st) ];
  cbv zeta; split_lookups;
  cbn [fst snd self next_addr trace logged mark_closed].

Section calls.
Context {Acc : identity.Accumulator} {Rng : MapRange}.

Lemma run_op_config (op : Op) (st : state) :
  same_config (self st) (self (run_op op st)).
Proof. op_cases op st; by repeat split. Qed.

Lemma run_snoc (ops : list Op) (op : Op) (st : state) :
  run (ops ++ [op]) st = run_op op (run ops st).
Proof. unfold run. by rewrite foldl_app. Qed.

Lemma run_app (ops1 ops2 : list Op) (st : state) :
  run (ops1 ++ ops2) st = run ops2 (run ops1 st).
Proof. unfold run. by rewrite foldl_app. Qed.

Lemma run_cons (op : Op) (ops : list Op) (st : state) :
  run (op :: ops) st = run ops (run_op op st).
Proof. reflexivity. Qed.

Lemma run_config (ops : list Op) (st : state) :
  same_config (self st) (self (run ops st)).
Proof.
  revert st. induction ops as [|op ops IH]; intros st.
  - apply same_config_refl.
  - rewrite run_cons. eapply same_config_trans; [apply run_op_config|apply IH].
Qed.

(** A general induction principle for the states a root scope reaches. *)
Lemma run_ind (P : state → Prop) (st0 : state) :
  P st0 → (∀ op st, P st → P (run_op op st)) → ∀ ops, P (run ops st0).
Proof.
  intros Hinit Hstep ops. induction ops as [|op ops IH] using rev_ind.
  - exact Hinit.
  - rewrite run_snoc. by apply Hstep.
Qed.

End calls.

(** ** Counting events *)

Lemma count_app (p : Event → bool) (l1 l2 : list Event) :
  count p (l1 ++ l2) = count p l1 + count p l2.
Proof. unfold count. by rewrite List.filter_app, length_app. Qed.

Lemma count_none (p : Event → bool) (l : list Event) :
  Forall (λ e, p e = false) l → count p l = 0.
Proof.
  unfold count. induction 1 as [|e l He _ IH]; [done|].
  cbn. by rewrite He.
Qed.

Lemma count_fmap_none {A} (p : Event → bool) (f : A → Event) (l : list A) :
  (∀ x, p (f x) = false) → count p (f <$> l) = 0.
Proof.
  intros Hf. apply count_none, Forall_fmap, Forall_forall. intros x _. apply Hf.
Qed.

Lemma report_events_no_quit `{!MapRange} (s : scope) (r : StatsReporter) :
  count is_quit_signal (report_events s r) = 0.
Proof.
  unfold report_events. rewrite !count_app, !count_fmap_none by done. done.
Qed.

Lemma cachedReport_events_no_quit (s : scope) :
  count is_quit_signal (cachedReport_events s) = 0.
Proof.
  unfold cachedReport_events. rewrite !count_app, !count_fmap_none by done.
  done.
Qed.

Lemma report_pass_no_quit (s : scope) : count is_quit_signal (report_pass s) = 0.
Proof. unfold report_pass. by repeat case_match. Qed.

Lemma closer_call_no_quit (s : scope) : count is_quit_signal (closer_call s) = 0.
Proof. unfold closer_call. by repeat case_match. Qed.

Lemma cached_call_no_quit ev (s : scope) (name : string) :
  (∀ c n t, is_quit_signal (ev c n t) = false) →
  count is_quit_signal (cached_call ev s name) = 0.
Proof. intros Hev. unfold cached_call, count. case_match; cbn; by rewrite ?Hev. Qed.

Lemma cached_histogram_call_no_quit (s : scope) (name : string) b :
  count is_quit_signal (cached_histogram_call s name b) = 0.
Proof. unfold cached_histogram_call. by case_match. Qed.

(** ** The status of a root scope *)

Section status.
Context {Acc : identity.Accumulator} {Rng : MapRange}.

Lemma newRootScope_status (opts : ScopeOptions) (interval : Z) :
  status_inv (newRootScope opts interval).
Proof.
  unfold status_inv, newRootScope. cbn. split; [done|]. by case_match.
Qed.

Lemma run_op_status_eq (op : Op) (st : state) :
  is_close op = false → status (self (run_op op st)) = status (self st).
Proof. op_cases op st; done. Qed.

Lemma run_op_quit_count (op : Op) (st : state) :
  is_close op = false →
  count is_quit_signal (trace (run_op op st)) =
  count is_quit_signal (trace st).
Proof.
  op_cases op st; intros; try done;
    rewrite ?count_app, ?report_events_no_quit,
      ?cachedReport_events_no_quit, ?report_pass_no_quit,
      ?cached_histogram_call_no_quit, ?cached_call_no_quit by done;
    cbn; lia.
Qed.

Lemma Close_status (st : state) :
  status_inv st →
  status_inv (Close st).2 ∧ closed (status (self (Close st).2)) = true.
Proof.
  unfold status_inv. intros [Hq Hn]. rewrite Close_spec. cbv zeta.
  destruct (closed (status (self st))) eqn:Hc.
  - cbn [snd logged self trace]. rewrite Hc, count_app, Hn. done.
  - rewrite Hq. cbn [snd self trace mark_closed set_status status closed quit].
    rewrite !count_app, Hn, report_pass_no_quit, closer_call_no_quit. done.
Qed.

Lemma run_op_status (op : Op) (st : state) :
  status_inv st →
  status_inv (run_op op st) ∧
  closed (status (self (run_op op st))) =
    closed (status (self st)) || is_close op.
Proof.
  intros Hinv. destruct (is_close op) eqn:Hop.
  - destruct op; try discriminate. cbn [run_op].
    destruct (Close_status st Hinv) as [? ->]. by rewrite orb_true_r.
  - unfold status_inv.
    rewrite run_op_status_eq, run_op_quit_count, orb_false_r by done.
    split; [exact Hinv|done].
Qed.

Lemma run_status (opts : ScopeOptions) (interval : Z) (ops : list Op) :
  status_inv (run ops (newRootScope opts interval)).
Proof.
  apply run_ind; [apply newRootScope_status|].
  intros op st Hst. by apply run_op_status.
Qed.

(** A root scope is closed exactly when it has received a [Close]. *)
Lemma run_closed (opts : ScopeOptions) (interval : Z) (ops : list Op) :
  closed (status (self (run ops (newRootScope opts interval)))) =
  existsb is_close ops.
Proof.
  induction ops as [|op ops IH] using rev_ind; [done|].
  rewrite run_snoc, existsb_app. cbn [existsb]. rewrite orb_false_r.
  destruct (run_op_status op _ (run_status opts interval ops)) as [_ ->].
  by rewrite IH.
Qed.

End status.

(** ** The tick and [Close] *)

Lemma added_logged (st : state) (evs : list Event) :
  added st (logged st evs) = evs.
Proof. unfold added, logged. cbn. by rewrite drop_app_length. Qed.

Lemma reportLoopRun_closed (st : state) :
  closed (status (self st)) = true →
  reportLoopRun st =
  (Returned tt, logged st [EvRLock status_mu; EvRUnlock status_mu]).
Proof. intros Hc. by rewrite reportLoopRun_spec, Hc. Qed.

Lemma reportLoopRun_open (st : state) :
  closed (status (self st)) = false →
  reportLoopRun st =
  (Returned tt,
   logged st
     ([EvRLock status_mu] ++ report_pass (self st) ++ [EvRUnlock status_mu])).
Proof. intros Hc. by rewrite reportLoopRun_spec, Hc. Qed.

Lemma Close_closed (st : state) :
  closed (status (self st)) = true →
  Close st = (Returned None, logged st [EvLock status_mu; EvUnlock status_mu]).
Proof. intros Hc. by rewrite Close_spec, Hc. Qed.

Lemma Close_open (st : state) :
  status_inv st →
  closed (status (self st)) = false →
  Close st =
  (Returned (closer_result (self st)),
   mkState (mark_closed ChanClosed (self st)) (next_addr st)
     (trace st ++ [EvLock status_mu; EvCloseQuit] ++ report_pass (self st)
        ++ closer_call (self st) ++ [EvUnlock status_mu])).
Proof.
  intros [Hq _] Hc. rewrite Hc in Hq. by rewrite Close_spec, Hc, Hq.
Qed.

Lemma report_pass_count (s : scope) :
  count is_report (report_pass s) = (if has_reporter s then 1 else 0) ∧
  count is_flush (report_pass s) = (if has_reporter s then 1 else 0).
Proof.
  unfold report_pass, has_reporter.
  destruct (reporter s); [|destruct (cachedReporter s)]; done.
Qed.

Section closing.
Context {Acc : identity.Accumulator} {Rng : MapRange}.

(** C3: once the closed flag of the scope status is true, a tick of the
    reporting loop reports nothing and flushes nothing: [reportLoopRun]
    takes and releases the shared status lock and returns, the scope
    unchanged, without a call to the registry fan-out or to either
    reporter.  This holds in every state with the flag set, and so in every
    state a root scope is in after a [Close], whatever calls follow it. *)
Theorem reportLoopRun_after_Close_reports_nothing
    (opts : ScopeOptions) (interval : Z) (ops1 ops2 : list Op) :
  let st := run (ops1 ++ OpClose :: ops2) (newRootScope opts interval) in
  (∀ st' : state,
     closed (status (self st')) = true →
     reportLoopRun st' =
     (Returned tt, logged st' [EvRLock status_mu; EvRUnlock status_mu])) ∧
  closed (status (self st)) = true ∧
  reportLoopRun st =
  (Returned tt, logged st [EvRLock status_mu; EvRUnlock status_mu]) ∧
  count is_report (added st (reportLoopRun st).2) = 0 ∧
  count is_flush (added st (reportLoopRun st).2) = 0.
Proof.
  intros st.
  assert (Hc : closed (status (self st)) = true).
  { subst st. rewrite run_closed, existsb_app. cbn. by rewrite orb_true_r. }
  split; [exact reportLoopRun_closed|]. split; [exact Hc|].
  rewrite (reportLoopRun_closed st Hc). cbn [snd].
  rewrite added_logged. done.
Qed.




End closing.

(** ** A scope with both reporters *)

Ltac count_events :=
  unfold report_events, cachedReport_events, report_pass, closer_call,
    cached_call, cached_histogram_call;
  repeat case_match; rewrite ?count_app, ?count_fmap_none by done;
  cbn; try lia; try done.

Section both_reporters.
Context {Acc : identity.Accumulator} {Rng : MapRange}.

Lemma run_op_no_cached_pass (op : Op) (st : state) :
  is_Some (reporter (self st)) →
  count is_cached_pass (trace (run_op op st)) =
  count is_cached_pass (trace st).
Proof.
  intros [r0 Hr0].
  op_cases op st; rewrite ?count_app; try (count_events; fail).
  all: unfold report_pass; rewrite Hr0; count_events.
Qed.

Lemma run_no_cached_pass (ops : list Op) (st : state) :
  is_Some (reporter (self st)) →
  count is_cached_pass (trace (run ops st)) = count is_cached_pass (trace st).
Proof.
  intros Hr. induction ops as [|op ops IH] using rev_ind; [done|].
  rewrite run_snoc, run_op_no_cached_pass; [done|].
  destruct (run_config ops st) as (_&_&_&->&_). done.
Qed.

(** C10: on a root scope configured with both a push reporter [r] and a
    cached reporter [c], the push reporter alone drives reporting: the
    base reporter is [r], every reporting pass (a tick of the loop, the
    final pass of [Close]) is [registry.Report(r)] followed by
    [r.Flush()], the log of the scope never holds a call of the cached
    reporting path, and [Capabilities] returns the capabilities of [r];
    yet each first registration of a counter, gauge, timer or histogram
    calls the matching [Allocate...] of [c], and the new instance keeps
    the handle. *)
Theorem push_reporter_drives_reporting
    (t : tagmap) (p sep : string) (r : StatsReporter)
    (c : CachedStatsReporter) (db : option Buckets)
    (so : option SanitizeOptions) (interval : Z) (ops : list Op) :
  let opts := mkScopeOptions t p (Some r) (Some c) sep db so in
  let st := run ops (newRootScope opts interval) in
  let s := self st in
  let key := Name (sanitizer s) in
  let fq := λ name, fullyQualifiedName s (key name) in
  (reporter s = Some r ∧ cachedReporter s = Some c ∧
   baseReporter s = Some (BaseOfReporter r)) ∧
  reportRegistryWithLock st =
    (Returned tt, logged st [EvRegistryReport r; EvReporterFlush r]) ∧
  (closed (status s) = false →
     reportLoopRun st =
     (Returned tt,
      logged st [EvRLock status_mu; EvRegistryReport r; EvReporterFlush r;
                 EvRUnlock status_mu]) ∧
     added st (Close st).2 =
       [EvLock status_mu; EvCloseQuit; EvRegistryReport r; EvReporterFlush r]
         ++ match sr_closer r with
            | Some _ => [EvCloserClose (BaseOfReporter r)]
            | None => []
            end
         ++ [EvUnlock status_mu]) ∧
  count is_cached_pass (trace st) = 0 ∧
  count is_cached_pass (trace (reportLoopRun st).2) = 0 ∧
  count is_cached_pass (trace (Close st).2) = 0 ∧
  scope_Capabilities s = sr_capabilities r ∧
  (∀ name, counters s !! key name = None →
     ∃ x st', Counter name st = (Returned x, st') ∧
       counter_cachedCount x = Some (mkCachedMetric c (fq name) (tags s)) ∧
       added st st' =
         [EvRLock cm; EvRUnlock cm; EvLock cm;
          EvAllocateCounter c (fq name) (tags s); EvUnlock cm]) ∧
  (∀ name, gauges s !! key name = None →
     ∃ x st', Gauge name st = (Returned x, st') ∧
       gauge_cachedGauge x = Some (mkCachedMetric c (fq name) (tags s)) ∧
       added st st' =
         [EvRLock gm; EvRUnlock gm; EvLock gm;
          EvAllocateGauge c (fq name) (tags s); EvUnlock gm]) ∧
  (∀ name, timers s !! key name = None →
     ∃ x st', Timer name st = (Returned x, st') ∧
       timer_cachedTimer x = Some (mkCachedMetric c (fq name) (tags s)) ∧
       added st st' =
         [EvRLock tm; EvRUnlock tm; EvLock tm;
          EvAllocateTimer c (fq name) (tags s); EvUnlock tm]) ∧
  (∀ name b, histograms s !! key name = None →
     added st (Histogram name b st).2 =
       [EvRLock hm; EvRUnlock hm; EvLock hm;
        EvAllocateHistogram c (fq name) (tags s) (effective_buckets s b);
        EvUnlock hm]).
Proof.
  intros opts st s key fq.
  pose proof (run_status opts interval ops) as Hinv. fold st in Hinv.
  destruct (run_config ops (newRootScope opts interval))
    as (_&_&_&Hr&Hcr&Hb&_).
  fold st in Hr, Hcr, Hb. fold s in Hr, Hcr, Hb. cbn in Hr, Hcr, Hb.
  assert (Hpass : report_pass s = [EvRegistryReport r; EvReporterFlush r]).
  { unfold report_pass. by rewrite Hr. }
  assert (H0 : count is_cached_pass (trace st) = 0).
  { subst st. rewrite run_no_cached_pass by (cbn; eauto).
    cbn. by case_match. }
  split; [done|]. split.
  { rewrite reportRegistryWithLock_spec. fold s. by rewrite Hpass. }
  split.
  { intros Hopen. split.
    - rewrite (reportLoopRun_open st Hopen). fold s. by rewrite Hpass.
    - rewrite (Close_open st Hinv Hopen). cbn [snd]. unfold added.
      cbn [trace]. rewrite drop_app_length. fold s. rewrite Hpass.
      unfold closer_call. rewrite Hb. cbn. by case_match. }
  split; [exact H0|]. split.
  { change (reportLoopRun st).2 with (run_op OpReportLoopRun st).
    rewrite run_op_no_cached_pass; [done|]. fold s. rewrite Hr. eauto. }
  split.
  { change (Close st).2 with (run_op OpClose st).
    rewrite run_op_no_cached_pass; [done|]. fold s. rewrite Hr. eauto. }
  split.
  { unfold scope_Capabilities. by rewrite Hb. }
  split; [|split; [|split]].
  - intros name Hnone. rewrite Counter_spec. cbv zeta. fold s. fold key.
    rewrite Hnone. eexists _, _. split; [done|].
    unfold cached_handle, cached_call, added. rewrite Hcr. cbn.
    split; [done|]. by rewrite drop_app_length.
  - intros name Hnone. rewrite Gauge_spec. cbv zeta. fold s. fold key.
    rewrite Hnone. eexists _, _. split; [done|].
    unfold cached_handle, cached_call, added. rewrite Hcr. cbn.
    split; [done|]. by rewrite drop_app_length.
  - intros name Hnone. rewrite Timer_spec. cbv zeta. fold s. fold key.
    rewrite Hnone. eexists _, _. split; [done|].
    unfold cached_handle, cached_call, added. rewrite Hcr. cbn.
    split; [done|]. by rewrite drop_app_length.
  - intros name b Hnone. rewrite Histogram_spec. cbv zeta. fold s. fold key.
    rewrite Hnone. unfold cached_histogram_call, added. rewrite Hcr.
    repeat case_match; cbn [snd trace];
      by rewrite <- !app_assoc, drop_app_length.
Qed.

End both_reporters.

(** ** Loops over maps *)

Lemma foldl_assign (l : list (string * string)) (acc : gmap string string) :
  NoDup l.*1 →
  foldl (λ result kv, <[kv.1 := kv.2]> result) acc l = list_to_map l ∪ acc.
Proof.
  revert acc. induction l as [|[k v] l IH]; intros acc Hnd.
  - cbn. by rewrite (left_id_L ∅ (∪)).
  - apply NoDup_cons in Hnd as [Hk Hnd]. cbn [foldl fst snd].
    rewrite IH by done. cbn [list_to_map foldr uncurry].
    rewrite <- insert_union_l, insert_union_r; [done|].
    by apply not_elem_of_list_to_map_1.
Qed.

Section ranges.
Context {Rng : MapRange}.

Lemma go_range_NoDup {V} (m : gmap string V) : NoDup (go_range m).*1.
Proof.
  rewrite (go_range_perm V m). apply NoDup_fst_map_to_list.
Qed.

Lemma go_range_to_map {V} (m : gmap string V) : list_to_map (go_range m) = m.
Proof. symmetry. apply list_to_map_flip. symmetry. apply go_range_perm. Qed.

Lemma go_range_empty {V} : go_range (∅ : gmap string V) = [].
Proof.
  apply Permutation_nil_r. rewrite go_range_perm. by rewrite map_to_list_empty.
Qed.

Lemma go_range_singleton {V} (k : string) (v : V) :
  go_range ({[k := v]} : gmap string V) = [(k, v)].
Proof.
  apply Permutation_singleton_r.
  by rewrite go_range_perm, map_to_list_singleton.
Qed.

(** The loop [for k, v := range m { result[k] = v }] lays [m] over
    [result], whatever the iteration order. *)
Lemma range_assign (m acc : gmap string string) :
  foldl (λ result kv, <[kv.1 := kv.2]> result) acc (go_range m) = m ∪ acc.
Proof. by rewrite foldl_assign, go_range_to_map by apply go_range_NoDup. Qed.

Lemma tag_len_0 (t : tagmap) : (tag_len t =? 0) = true ↔ tag_entries t = ∅.
Proof.
  unfold tag_len. rewrite Nat.eqb_eq. apply map_size_empty_iff.
Qed.

Lemma mergeRightTags_both (l r : tagmap) :
  tag_entries l ≠ ∅ → tag_entries r ≠ ∅ →
  mergeRightTags l r = Some (tag_entries r ∪ tag_entries l).
Proof.
  intros Hl Hr. unfold mergeRightTags.
  destruct (tag_len r =? 0) eqn:Er; [by apply tag_len_0 in Er|].
  destruct (tag_len l =? 0) eqn:El; [by apply tag_len_0 in El|].
  rewrite !range_assign, (right_id_L ∅ (∪)).
  destruct l, r; done.
Qed.

Lemma mergeRightTags_entries (l r : tagmap) :
  tag_entries (mergeRightTags l r) = tag_entries r ∪ tag_entries l.
Proof.
  unfold mergeRightTags.
  destruct (tag_len r =? 0) eqn:Er.
  { apply tag_len_0 in Er. rewrite Er, (left_id_L ∅ (∪)).
    destruct l, r; try done. }
  destruct (tag_len l =? 0) eqn:El.
  { apply tag_len_0 in El. rewrite El, (right_id_L ∅ (∪)).
    destruct l, r; try done. }
  rewrite !range_assign, (right_id_L ∅ (∪)).
  destruct l, r; done.
Qed.

(** C8: for every pair of tag maps, the keys of
    [mergeRightTags tagsLeft tagsRight] are the keys of [tagsLeft] together
    with the keys of [tagsRight], every key of [tagsRight] carries the
    value [tagsRight] gives it, and every other key the value of
    [tagsLeft]; merging {env: prod} with {env: staging, region: us} gives
    {env: staging, region: us}.  (The nil map reads as the empty map.) *)
Theorem mergeRightTags_right_wins (tagsLeft tagsRight : tagmap) :
  let merged := tag_entries (mergeRightTags tagsLeft tagsRight) in
  dom merged = dom (tag_entries tagsLeft) ∪ dom (tag_entries tagsRight) ∧
  (∀ k v, tag_entries tagsRight !! k = Some v → merged !! k = Some v) ∧
  (∀ k, tag_entries tagsRight !! k = None →
        merged !! k = tag_entries tagsLeft !! k) ∧
  mergeRightTags (Some {["env" := "prod"]})
    (Some {["env" := "staging"; "region" := "us"]})
  = Some {["env" := "staging"; "region" := "us"]}.
Proof.
  intros merged. subst merged. rewrite mergeRightTags_entries.
  split; [|split; [|split]].
  - by rewrite dom_union_L, (comm_L (∪)).
  - intros k v Hk. by apply lookup_union_Some_l.
  - intros k Hk. by apply lookup_union_r.
  - rewrite mergeRightTags_both.
    + vm_compute. reflexivity.
    + cbn. intros Heq. apply (f_equal (λ m, m !! "env")) in Heq. done.
    + cbn. intros Heq. apply (f_equal (λ m, m !! "env")) in Heq. done.
Qed.

End ranges.

(** ** Names *)

Lemma fullyQualifiedName_decide (s : scope) (name : string) :
  fullyQualifiedName s name =
  if decide (prefix s = "") then name else prefix s +:+ separator s +:+ name.
Proof.
  unfold fullyQualifiedName. destruct (prefix s) as [|a p]; done.
Qed.

Section names.
Context {Rng : MapRange}.

(** C7: [fullyQualifiedName] returns the name as it is when the prefix
    of the scope is empty and prefix, separator and name joined otherwise,
    and applies no sanitizer.  So for a root scope with prefix "svc" and
    separator "." (and no sanitize options), the subscope for the prefix
    segment "db" has prefix "svc.db", and a counter "queries" registered
    in it is reported by [report] under the name "svc.db.queries". *)
Theorem fullyQualifiedName_joins_prefix_and_name
    (t : tagmap) (rep : option StatsReporter)
    (crep : option CachedStatsReporter) (db : option Buckets)
    (interval : Z) (r : StatsReporter) :
  (∀ (s : scope) (name : string),
     fullyQualifiedName s name =
     if decide (prefix s = "") then name
     else prefix s +:+ separator s +:+ name) ∧
  let root := newRootScope (mkScopeOptions t "svc" rep crep "." db None)
                interval in
  let child := SubScope (self root) "db" in
  let st := (Counter "queries" (on_scope child root)).2 in
  prefix (self root) = "svc" ∧ separator (self root) = "." ∧
  prefix child = "svc.db" ∧ separator child = "." ∧
  fullyQualifiedName child "queries" = "svc.db.queries" ∧
  ∃ c : counter,
    counters (self st) = {["queries" := c]} ∧
    added st (report r st).2 =
      [EvRLock cm; EvCounterReport c "svc.db.queries" (tags child) r;
       EvRUnlock cm; EvRLock gm; EvRUnlock gm; EvRLock hm; EvRUnlock hm].
Proof.
  split; [exact fullyQualifiedName_decide|].
  intros root child st.
  repeat (split; [reflexivity|]).
  subst st. rewrite Counter_spec. cbv zeta.
  change (self (on_scope child root)) with child.
  change (counters child) with (∅ : gmap string counter).
  change (sanitizer child) with NewNoOpSanitizer.
  cbn [Name NewNoOpSanitizer].
  rewrite lookup_empty. cbn [snd self].
  eexists; split.
  - cbn [set_counters counters]. apply insert_empty.
  - rewrite report_spec. cbn [snd]. rewrite added_logged.
    unfold report_events.
    cbn [self set_counters counters gauges histograms tags].
    change (gauges child) with (∅ : gmap string gauge).
    change (histograms child) with (∅ : gmap string histogram).
    rewrite insert_empty, go_range_singleton, !go_range_empty.
    reflexivity.
Qed.

End names.

(** ** One instance per name *)

Lemma kind_inv_empty {A} (addr : A → nat) (n : nat) : kind_inv addr n ∅ [].
Proof.
  unfold kind_inv. rewrite map_to_list_empty. cbn.
  split; [done|]. split; [constructor|constructor].
Qed.

Lemma kind_inv_mono {A} (addr : A → nat) (n n' : nat) (m : gmap string A)
    (l : list A) :
  kind_inv addr n m l → n ≤ n' → kind_inv addr n' m l.
Proof.
  intros (Hp&Hnd&Hlt) Hle. repeat split; [done..|].
  eapply Forall_impl; [exact Hlt|]. cbn. lia.
Qed.

Lemma kind_inv_perm {A} (addr : A → nat) (n : nat) (m : gmap string A)
    (l l' : list A) :
  kind_inv addr n m l → l ≡ₚ l' → kind_inv addr n m l'.
Proof.
  intros (Hp&Hnd&Hlt) Hl. repeat split.
  - by rewrite <- Hl.
  - by rewrite <- Hl.
  - by rewrite <- Hl.
Qed.

Lemma kind_inv_insert {A} (addr : A → nat) (n n' : nat) (m : gmap string A)
    (l : list A) (k : string) (x : A) :
  kind_inv addr n m l → m !! k = None → n ≤ addr x → addr x < n' →
  kind_inv addr n' (<[k := x]> m) (l ++ [x]).
Proof.
  intros (Hp&Hnd&Hlt) Hk Hge Hlt'. repeat split.
  - rewrite map_to_list_insert by done. cbn. rewrite <- Hp.
    by rewrite Permutation_app_comm.
  - rewrite fmap_app. cbn. apply NoDup_app. split; [done|].
    split; [|apply NoDup_singleton].
    intros a Ha Hx. apply list_elem_of_singleton in Hx as ->.
    apply list_elem_of_fmap in Ha as (y&Hy&Hin).
    rewrite Forall_forall in Hlt. specialize (Hlt y Hin). lia.
  - apply Forall_app. split.
    + eapply Forall_impl; [exact Hlt|]. cbn. lia.
    + by repeat constructor.
Qed.

Lemma kind_inv_insert_values {A} (addr : A → nat) (n n' : nat)
    (m : gmap string A) (k : string) (x : A) :
  kind_inv addr n m (map_to_list m).*2 → m !! k = None →
  n ≤ addr x → addr x < n' →
  kind_inv addr n' (<[k := x]> m) (map_to_list (<[k := x]> m)).*2.
Proof.
  intros Hinv Hk Hge Hlt.
  pose proof (kind_inv_insert addr n n' m _ k x Hinv Hk Hge Hlt) as Hnew.
  eapply kind_inv_perm; [exact Hnew|]. apply Hnew.
Qed.

Section registration.
Context {Acc : identity.Accumulator} {Rng : MapRange}.

Lemma newRootScope_metrics (opts : ScopeOptions) (interval : Z) :
  metrics_inv (newRootScope opts interval).
Proof.
  unfold metrics_inv, newRootScope. cbn.
  rewrite map_to_list_empty. cbn. auto using @kind_inv_empty.
Qed.

Lemma run_op_metrics (op : Op) (st : state) :
  metrics_inv st → metrics_inv (run_op op st).
Proof.
  unfold metrics_inv. intros (Hc&Hg&Hh&Ht).
  op_cases op st;
    cbn [counters countersSlice gauges gaugesSlice histograms histogramsSlice
         timers set_counters set_gauges set_histograms set_timers
         set_bucketCache set_status];
    (split; [|split; [|split]]);
    first [ assumption
          | eapply kind_inv_insert; [eassumption|eassumption|cbn; lia..]
          | eapply kind_inv_insert_values; [eassumption|eassumption|cbn; lia..]
          | eapply kind_inv_mono; [eassumption|lia] ].
Qed.

Lemma run_metrics (ops : list Op) (st0 : state) :
  metrics_inv st0 → metrics_inv (run ops st0).
Proof. intros Hinit. apply run_ind; [done|]. apply run_op_metrics. Qed.

Lemma unregistered_metrics (s0 : scope) (n : nat) (tr : list Event) :
  metrics_inv (mkState (unregistered s0) n tr).
Proof.
  unfold metrics_inv, unregistered. cbn.
  rewrite map_to_list_empty. cbn. auto using @kind_inv_empty.
Qed.

Lemma newRootScope_unregistered (opts : ScopeOptions) (interval : Z) :
  self (newRootScope opts interval) =
  unregistered (self (newRootScope opts interval)).
Proof. reflexivity. Qed.

Lemma registry_Subscope_unregistered (parent : scope) (child_prefix : string)
    (overrides : tagmap) :
  registry_Subscope parent child_prefix overrides =
  unregistered (registry_Subscope parent child_prefix overrides).
Proof. reflexivity. Qed.

Lemma run_op_next_addr (op : Op) (st : state) :
  next_addr st ≤ next_addr (run_op op st).
Proof. op_cases op st; lia. Qed.

(** The name-to-instance maps only grow: an entry stays as it is. *)
Lemma run_op_registered (op' op : Op) (st : state) (i : instance) :
  registered (self st) op = Some i →
  registered (self (run_op op' st)) op = Some i.
Proof.
  destruct (run_op_config op' st) as (_&_&_&_&_&_&_&Hsan).
  unfold registered. rewrite Hsan. clear Hsan.
  destruct op as [n|n|n|n bk| | | |]; try done; intros Hreg;
    (op_cases op' st;
     cbn [counters gauges histograms timers set_counters set_gauges
          set_histograms set_timers set_bucketCache set_status];
     try assumption;
     (rewrite lookup_insert_ne;
      [ assumption
      | intros Heq; rewrite <- Heq in Hreg;
        match goal with
        | Hnone : _ !! _ = None |- _ => rewrite Hnone in Hreg; discriminate
        end ])).
Qed.

Lemma run_registered (ops : list Op) (op : Op) (st : state) (i : instance) :
  registered (self st) op = Some i →
  registered (self (run ops st)) op = Some i.
Proof.
  revert st. induction ops as [|op' ops IH]; intros st Hreg; [done|].
  rewrite run_cons. by apply IH, run_op_registered.
Qed.

Lemma register_run_op (op : Op) (st st' : state) (o : outcome instance) :
  register op st = Some (o, st') → st' = run_op op st.
Proof. destruct op; cbn; congruence. Qed.

(** A registration call for a name the scope holds returns the instance
    held, and leaves the scope and the heap as they are: it takes and
    releases the read lock of its kind. *)
Lemma register_hit (op : Op) (st : state) (i : instance) :
  registered (self st) op = Some i →
  register op st =
  Some (Returned i, logged st [EvRLock (mutex_of op); EvRUnlock (mutex_of op)]).
Proof.
  destruct op as [n|n|n|n bk| | | |]; cbn [registered register mutex_of];
    try done; intros Hreg.
  - rewrite Counter_spec. cbv zeta.
    destruct (counters (self st) !! _); by simplify_eq/=.
  - rewrite Gauge_spec. cbv zeta.
    destruct (gauges (self st) !! _); by simplify_eq/=.
  - rewrite Timer_spec. cbv zeta.
    destruct (timers (self st) !! _); by simplify_eq/=.
  - rewrite Histogram_spec. cbv zeta.
    destruct (histograms (self st) !! _); by simplify_eq/=.
Qed.

(** A registration call that returns leaves the instance it returned in
    the map of its kind, under the sanitized name; when the name was not
    held before, the instance is a fresh object. *)
Lemma register_returned (op : Op) (st st' : state) (i : instance) :
  register op st = Some (Returned i, st') →
  registered (self st') op = Some i ∧
  (registered (self st) op = None → next_addr st ≤ instance_addr i).
Proof.
  destruct op as [n|n|n|n bk| | | |]; cbn [registered register];
    try done.
  - rewrite Counter_spec. cbv zeta.
    destruct (counters (self st) !! _) eqn:Hl; intros [= <- <-]; cbn.
    + by rewrite Hl.
    + by rewrite lookup_insert_eq.
  - rewrite Gauge_spec. cbv zeta.
    destruct (gauges (self st) !! _) eqn:Hl; intros [= <- <-]; cbn.
    + by rewrite Hl.
    + by rewrite lookup_insert_eq.
  - rewrite Timer_spec. cbv zeta.
    destruct (timers (self st) !! _) eqn:Hl; intros [= <- <-]; cbn.
    + by rewrite Hl.
    + by rewrite lookup_insert_eq.
  - rewrite Histogram_spec. cbv zeta.
    destruct (histograms (self st) !! _) eqn:Hl.
    + intros [= <- <-]; cbn. by rewrite Hl.
    + destruct (getBucketsIdentity _); [|done].
      destruct (bucketCache (self st) !! _); intros [= <- <-]; cbn;
        rewrite lookup_insert_eq; split; [done|lia|done|lia].
Qed.

End registration.

Section one_instance_per_name.
Context {Acc : identity.Accumulator} {Rng : MapRange}.

(** C1: in every state a scope reaches from its construction (a root
    scope from [newRootScope], a subscope from the registry: any scope
    with no metric registered yet) by any sequence of calls, each kind
    keeps one instance per sanitized name.
    - For counters, gauges and histograms the insertion-ordered slice
      lists exactly the instances of the lookup map, each once, and the
      instances of a kind (timers included) are pairwise distinct objects.
    - A registration call whose name sanitizes to a registered name
      returns the instance the scope holds; the scope and the heap stay
      as they are (no allocation, no insertion), the call only takes and
      releases the read lock of its kind.
    - A registration call for a name not yet registered that returns,
      returns a fresh object and leaves it registered under the sanitized
      name.
    - Every registration call of the sequence that returned an instance
      returned the one the scope holds under the call's sanitized name at
      the end: all calls for one sanitized name got the same instance. *)
Theorem registration_keeps_one_instance_per_name
    (s0 : scope) (n0 : nat) (tr0 : list Event) (ops : list Op) :
  let st0 := mkState (unregistered s0) n0 tr0 in
  let st := run ops st0 in
  let s := self st in
  (countersSlice s ≡ₚ (map_to_list (counters s)).*2 ∧
   NoDup (counter_addr <$> countersSlice s)) ∧
  (gaugesSlice s ≡ₚ (map_to_list (gauges s)).*2 ∧
   NoDup (gauge_addr <$> gaugesSlice s)) ∧
  (histogramsSlice s ≡ₚ (map_to_list (histograms s)).*2 ∧
   NoDup (histogram_addr <$> histogramsSlice s)) ∧
  NoDup (timer_addr <$> (map_to_list (timers s)).*2) ∧
  (∀ op i,
     registered s op = Some i →
     register op st =
     Some (Returned i,
           logged st [EvRLock (mutex_of op); EvRUnlock (mutex_of op)])) ∧
  (∀ op i st',
     registered s op = None →
     register op st = Some (Returned i, st') →
     registered (self st') op = Some i ∧ next_addr st ≤ instance_addr i ∧
     instance_addr i < next_addr st') ∧
  (∀ ops1 op ops2 i st',
     ops = ops1 ++ op :: ops2 →
     register op (run ops1 st0) = Some (Returned i, st') →
     registered s op = Some i).
Proof.
  intros st0 st s.
  pose proof (run_metrics ops st0 (unregistered_metrics s0 n0 tr0)) as Hst.
  destruct Hst as ((Hc1&Hc2&_)&(Hg1&Hg2&_)&(Hh1&Hh2&_)&(_&Ht2&_)).
  split; [done|]. split; [done|]. split; [done|]. split; [done|].
  split; [|split].
  - intros op i. apply register_hit.
  - intros op i st' Hnone Hret.
    destruct (register_returned op st st' i Hret) as [Hreg Hfresh].
    split; [done|]. split; [by apply Hfresh|].
    pose proof (register_run_op _ _ _ _ Hret) as ->.
    pose proof (run_op_metrics op st
                  (run_metrics ops st0 (unregistered_metrics s0 n0 tr0)))
      as Hinv.
    destruct Hinv as ((Hcp&_&Hcl)&(Hgp&_&Hgl)&(Hhp&_&Hhl)&(_&_&Htl)).
    rewrite Forall_forall in Hcl. rewrite Forall_forall in Hgl.
    rewrite Forall_forall in Hhl. rewrite Forall_forall in Htl.
    destruct op as [n|n|n|n bk| | | |]; try done; cbn [registered] in Hreg;
      apply fmap_Some in Hreg as (x&Hx&->); cbn [instance_addr].
    + apply Hcl. rewrite Hcp. apply list_elem_of_fmap.
      exists (Name (sanitizer (self (run_op (OpCounter n) st))) n, x).
      split; [done|]. by apply elem_of_map_to_list.
    + apply Hgl. rewrite Hgp. apply list_elem_of_fmap.
      exists (Name (sanitizer (self (run_op (OpGauge n) st))) n, x).
      split; [done|]. by apply elem_of_map_to_list.
    + apply Htl. apply list_elem_of_fmap.
      exists (Name (sanitizer (self (run_op (OpTimer n) st))) n, x).
      split; [done|]. by apply elem_of_map_to_list.
    + apply Hhl. rewrite Hhp. apply list_elem_of_fmap.
      exists (Name (sanitizer (self (run_op (OpHistogram n bk) st))) n, x).
      split; [done|]. by apply elem_of_map_to_list.
  - intros ops1 op ops2 i st' -> Hret.
    destruct (register_returned op _ st' i Hret) as [Hreg _].
    pose proof (register_run_op _ _ _ _ Hret) as ->.
    subst s st. rewrite run_app, run_cons. by apply run_registered.
Qed.

End one_instance_per_name.

(** ** The bucket-storage cache *)

Lemma getBucketsIdentity_words `{!identity.Accumulator} (b : Buckets)
    (words : list Z) :
  bucket_words b = Some words →
  getBucketsIdentity (Some b) =
  Returned (identity.Value
              (foldl identity.AddUint64 identity.NewAccumulator words)).
Proof.
  destruct b as [ds|vs|n]; cbn; intros [= <-]; by rewrite foldl_fmap.
Qed.

Section cache.
Context {Acc : identity.Accumulator} {Rng : MapRange}.

Lemma run_op_cache (op : Op) (st : state) :
  cache_inv st → cache_inv (run_op op st).
Proof.
  unfold cache_inv. intros [Hlt Hinj].
  op_cases op st; cbn [bucketCache set_counters set_gauges set_timers
    set_histograms set_bucketCache set_status];
    (split; [intros bid x Hx|intros bid1 bid2 x1 x2 Hx1 Hx2 Heq]);
    try (specialize (Hlt _ _ Hx); lia); try (by eapply Hinj).
  - apply lookup_insert_Some in Hx as [[_ <-]|[_ Hx]]; cbn; [lia|].
    specialize (Hlt _ _ Hx). lia.
  - apply lookup_insert_Some in Hx1 as [[<- <-]|[Hne1 Hx1]];
      apply lookup_insert_Some in Hx2 as [[<- <-]|[Hne2 Hx2]]; try done.
    + specialize (Hlt _ _ Hx2). cbn in Heq. lia.
    + specialize (Hlt _ _ Hx1). cbn in Heq. lia.
    + by eapply Hinj.
Qed.

Lemma run_cache (ops : list Op) (st0 : state) :
  cache_inv st0 → cache_inv (run ops st0).
Proof. intros Hinit. apply run_ind; [done|]. apply run_op_cache. Qed.

Lemma empty_cache_inv (s0 : scope) (n : nat) (tr : list Event) :
  cache_inv (mkState (set_bucketCache ∅ s0) n tr).
Proof. unfold cache_inv. cbn. split; intros *; by rewrite lookup_empty. Qed.

(** Entries of the cache stay as they are. *)
Lemma run_op_cache_keeps (op : Op) (st : state) (bid : Z) (x : bucketStorage) :
  bucketCache (self st) !! bid = Some x →
  bucketCache (self (run_op op st)) !! bid = Some x.
Proof.
  intros Hx.
  op_cases op st; cbn [bucketCache set_counters set_gauges set_timers
    set_histograms set_bucketCache set_status]; try done.
  rewrite lookup_insert_ne; [done|]. congruence.
Qed.

Lemma run_cache_keeps (ops : list Op) (st : state) (bid : Z)
    (x : bucketStorage) :
  bucketCache (self st) !! bid = Some x →
  bucketCache (self (run ops st)) !! bid = Some x.
Proof.
  revert st. induction ops as [|op ops IH]; intros st Hx; [done|].
  rewrite run_cons. by apply IH, run_op_cache_keeps.
Qed.

(** The construction of a histogram: the storage it gets is the entry of
    the cache under the identity of its buckets, found there or allocated
    and put there. *)
Lemma Histogram_constructs (st st' : state) (name : string)
    (b : option Buckets) (h : histogram) :
  histograms (self st) !! Name (sanitizer (self st)) name = None →
  Histogram name b st = (Returned h, st') →
  ∃ bid,
    getBucketsIdentity (effective_buckets (self st) b) = Returned bid ∧
    st' = run_op (OpHistogram name b) st ∧
    bucketCache (self st') !! bid = Some (histogram_storage h) ∧
    histogram_htype h = htype_of (effective_buckets (self st) b) ∧
    match bucketCache (self st) !! bid with
    | Some x => histogram_storage h = x
    | None => storage_addr (histogram_storage h) = next_addr st
    end.
Proof.
  intros Hnone Hret.
  assert (Hst' : st' = run_op (OpHistogram name b) st).
  { cbn [run_op]. by rewrite Hret. }
  revert Hret. rewrite Histogram_spec. cbv zeta. rewrite Hnone.
  destruct (getBucketsIdentity _) as [bid|] eqn:Hid; [|done].
  destruct (bucketCache (self st) !! bid) as [x|] eqn:Hx;
    intros [= <- Hst'']; exists bid;
    (split; [done|]); (split; [exact Hst'|]); rewrite <- Hst'';
    cbn [self histogram_storage histogram_htype bucketCache set_histograms
         set_bucketCache storage_addr].
  - by rewrite Hx.
  - by rewrite lookup_insert_eq, Hx.
Qed.

End cache.

Section shared_storage.
Context {Acc : identity.Accumulator} {Rng : MapRange}.

(** C4, as the code has it: the key of the bucket-storage cache is the
    accumulator's value over the ordered 64-bit words of the boundaries
    ([uint64] of a duration, [Float64bits] of a value) and nothing else:
    the type discriminant is not part of it.  In a scope that starts with
    an empty cache, two histograms constructed at any two moments share
    one storage object exactly when the identities of their bucket sets
    are equal; so bucket sets with the same words share storage whatever
    their discriminants, and bucket sets with different identities never
    share. *)
Theorem bucket_storage_shared_by_identity
    (s0 : scope) (n0 : nat) (tr0 : list Event) (ops1 ops2 : list Op)
    (name1 name2 : string) (b1 b2 : option Buckets) (h1 h2 : histogram)
    (st1' st2' : state) :
  let st1 := run ops1 (mkState (set_bucketCache ∅ s0) n0 tr0) in
  let st2 := run ops2 st1' in
  histograms (self st1) !! Name (sanitizer (self st1)) name1 = None →
  Histogram name1 b1 st1 = (Returned h1, st1') →
  histograms (self st2) !! Name (sanitizer (self st2)) name2 = None →
  Histogram name2 b2 st2 = (Returned h2, st2') →
  (histogram_storage h1 = histogram_storage h2 ↔
   getBucketsIdentity (effective_buckets (self st1) b1) =
   getBucketsIdentity (effective_buckets (self st2) b2)) ∧
  (storage_addr (histogram_storage h1) = storage_addr (histogram_storage h2) ↔
   histogram_storage h1 = histogram_storage h2) ∧
  (∀ (b : Buckets) (words : list Z),
     bucket_words b = Some words →
     getBucketsIdentity (Some b) =
     Returned (identity.Value
                 (foldl identity.AddUint64 identity.NewAccumulator words))) ∧
  (∀ x1 x2 words,
     effective_buckets (self st1) b1 = Some x1 →
     effective_buckets (self st2) b2 = Some x2 →
     bucket_words x1 = Some words → bucket_words x2 = Some words →
     histogram_storage h1 = histogram_storage h2).
Proof.
  intros st1 st2 Hnone1 Hret1 Hnone2 Hret2.
  destruct (Histogram_constructs _ _ _ _ _ Hnone1 Hret1)
    as (bid1&Hid1&Hst1'&Hin1&_&_).
  destruct (Histogram_constructs _ _ _ _ _ Hnone2 Hret2)
    as (bid2&Hid2&_&_&_&Hfrom2).
  assert (Hinv2 : cache_inv st2).
  { subst st2. apply run_cache. rewrite Hst1'.
    apply run_op_cache. subst st1. apply run_cache, empty_cache_inv. }
  assert (Hkeep : bucketCache (self st2) !! bid1 = Some (histogram_storage h1)).
  { subst st2. by apply run_cache_keeps. }
  destruct Hinv2 as [Hlt Hinj].
  assert (Haddr : storage_addr (histogram_storage h1)
                  = storage_addr (histogram_storage h2) → bid1 = bid2).
  { intros Heq. destruct (bucketCache (self st2) !! bid2) as [x|] eqn:Hx.
    - subst x. by eapply Hinj.
    - specialize (Hlt _ _ Hkeep). lia. }
  assert (Hshare : bid1 = bid2 → histogram_storage h1 = histogram_storage h2).
  { intros <-. rewrite Hkeep in Hfrom2. done. }
  rewrite Hid1, Hid2.
  split; [|split; [|split]].
  - split.
    + intros Heq. f_equal. apply Haddr. by rewrite Heq.
    + intros [= ?]. by apply Hshare.
  - split; [|by intros ->]. intros Heq. by apply Hshare, Haddr.
  - apply getBucketsIdentity_words.
  - intros x1 x2 words He1 He2 Hw1 Hw2. apply Hshare.
    rewrite He1, (getBucketsIdentity_words _ _ Hw1) in Hid1.
    rewrite He2, (getBucketsIdentity_words _ _ Hw2) in Hid2.
    congruence.
Qed.

End shared_storage.

(** The theorem at the two example histograms: both are constructed, and
    they share their storage. *)
Lemma bucket_storage_shared_by_identity_witness :
  let h1 := returned_histogram example_duration_call.1 in
  let h2 := returned_histogram example_value_call.1 in
  example_duration_call.1 = Returned h1 ∧
  example_value_call.1 = Returned h2 ∧
  (histogram_storage h1 = histogram_storage h2 ↔
   @getBucketsIdentity identity.additive_fold (Some (DurationBuckets [0%Z])) =
   @getBucketsIdentity identity.additive_fold
     (Some (ValueBuckets [mkFloat64 0]))).
Proof.
  split; [vm_compute; reflexivity|]. split; [vm_compute; reflexivity|].
  refine (proj1 (@bucket_storage_shared_by_identity identity.additive_fold
           range_ascending (self example_root) 0 [] [] [] "a" "b"
           (Some (DurationBuckets [0%Z])) (Some (ValueBuckets [mkFloat64 0]))
           (returned_histogram example_duration_call.1)
           (returned_histogram example_value_call.1)
           example_duration_call.2 example_value_call.2 _ _ _ _));
    vm_compute; reflexivity.
Defined.

(** C4, as stated, fails: the histogram over the duration bucket [0ns] and
    the histogram over the value bucket [+0.0] differ in their type
    discriminant, and yet share one storage object, created for the
    duration type. *)
Lemma storage_shared_across_discriminants :
  let h1 := returned_histogram example_duration_call.1 in
  let h2 := returned_histogram example_value_call.1 in
  example_duration_call.1 = Returned h1 ∧
  example_value_call.1 = Returned h2 ∧
  histogram_htype h1 = durationHistogramType ∧
  histogram_htype h2 = valueHistogramType ∧
  histogram_storage h1 = histogram_storage h2 ∧
  storage_htype (histogram_storage h2) = durationHistogramType.
Proof. vm_compute. repeat split. Qed.

(** The same holds whatever the accumulator: the identity of the two
    bucket sets is the same. *)
Lemma identity_ignores_discriminant `{!identity.Accumulator} :
  getBucketsIdentity (Some (DurationBuckets [0%Z])) =
  getBucketsIdentity (Some (ValueBuckets [mkFloat64 0])).
Proof. reflexivity. Qed.

(** ** The reporting sweeps *)

Section sweeps.
Context {Acc : identity.Accumulator} {Rng : MapRange}.


End sweeps.


(** ** Buckets of a foreign type *)

(** C6: a call [Histogram(name, b)] with a non-nil [b] that is neither
    [DurationBuckets] nor [ValueBuckets] never constructs a histogram.
    When the name is not registered the call panics at the type assertion
    of [getBucketsIdentity], always with the same message, with the write
    lock released and with the scope and the heap as they were: no storage
    and no histogram of either kind has been made.  When the name is
    registered already nothing is constructed either: the call returns the
    histogram the scope holds. *)
Theorem Histogram_rejects_foreign_buckets `{!identity.Accumulator}
    (st : state) (name : string) (len : Z) :
  let s := self st in
  let key := Name (sanitizer s) name in
  let b := Some (OtherBuckets len) in
  match histograms s !! key with
  | None =>
      Histogram name b st =
      (Panicked
        "interface conversion: tally.Buckets is not tally.ValueBuckets",
       logged st
         ([EvRLock hm; EvRUnlock hm; EvLock hm]
            ++ cached_histogram_call s key b ++ [EvUnlock hm]))
  | Some h =>
      Histogram name b st = (Returned h, logged st [EvRLock hm; EvRUnlock hm])
  end ∧
  self (Histogram name b st).2 = s ∧
  next_addr (Histogram name b st).2 = next_addr st ∧
  ((Histogram name b st).1 =
     Panicked
        "interface conversion: tally.Buckets is not tally.ValueBuckets" ∨
   ∃ h, histograms s !! key = Some h ∧ (Histogram name b st).1 = Returned h).
Proof.
  intros s key b. rewrite Histogram_spec. cbv zeta. fold s. fold key.
  destruct (histograms s !! key) as [h|] eqn:Hh.
  - repeat split; eauto.
  - cbn. unfold logged. rewrite <- !app_assoc. repeat split; eauto.
Qed.

(** ** Examples *)

(** Two names that sanitize to one name get one counter. *)
Example Counter_shared_by_sanitized_name :
  let collapse := mkSanitizer (λ _, "m") (λ k, k) (λ v, v) in
  let st0 :=
    @newRootScope range_ascending
      (mkScopeOptions None "" None None "" None (Some collapse)) 0 in
  let first := Counter "requests" st0 in
  let second := Counter "errors" first.2 in
  first.1 = Returned (mkCounter 0 None) ∧ second.1 = first.1 ∧
  countersSlice (self second.2) = [mkCounter 0 None] ∧
  next_addr second.2 = 1.
Proof. vm_compute. repeat split. Qed.

(** Bucket sets [0, 10ms, 50ms] twice and [0, 20ms] once: the first two
    histograms share their storage, the third has its own. *)
Example Histogram_storage_dedup :
  let b1 := Some (DurationBuckets [0; 10 * Millisecond; 50 * Millisecond]%Z) in
  let b2 := Some (DurationBuckets [0; 20 * Millisecond]%Z) in
  let c1 := @Histogram identity.additive_fold "h1" b1 example_root in
  let c2 := @Histogram identity.additive_fold "h2" b1 c1.2 in
  let c3 := @Histogram identity.additive_fold "h3" b2 c2.2 in
  histogram_storage (returned_histogram c1.1)
    = histogram_storage (returned_histogram c2.1) ∧
  storage_addr (histogram_storage (returned_histogram c3.1)) = 3 ∧
  storage_addr (histogram_storage (returned_histogram c1.1)) = 0 ∧
  size (bucketCache (self c3.2)) = 2.
Proof. vm_compute. repeat split. Qed.

(** Two calls of [Close] on a scope with a push reporter whose closer
    fails: the first returns the closer's error, the second nil, and the
    log holds one report, one flush, one quit signal and one closer call. *)
Example Close_twice_flushes_once :
  let r := mkStatsReporter "r" capabilitiesNone (Some (Some "boom")) in
  let st0 :=
    @newRootScope range_ascending
      (mkScopeOptions None "svc" (Some r) None "" None None) 1000 in
  let first := Close st0 in
  let second := Close first.2 in
  first.1 = Returned (Some "boom") ∧ second.1 = Returned None ∧
  count is_report (trace second.2) = 1 ∧
  count is_flush (trace second.2) = 1 ∧
  count is_quit_signal (trace second.2) = 1 ∧
  count is_closer_call (trace second.2) = 1.
Proof. vm_compute. repeat split. Qed.

(** The default buckets of a root scope are the duration ladder, so a
    histogram registered without buckets is a duration histogram. *)
Example Histogram_default_buckets :
  let c := @Histogram identity.additive_fold "latency" None example_root in
  histogram_htype (returned_histogram c.1) = durationHistogramType ∧
  storage_buckets (histogram_storage (returned_histogram c.1))
    = Some defaultScopeBuckets ∧
  histogram_name (returned_histogram c.1) = "svc.latency".
Proof. vm_compute. repeat split. Qed.

(** * Further properties of scope.go *)

(** ** Tag maps: [copyAndSanitizeMap] and [mergeRightTags] *)

Lemma foldl_assign_lookup (l : list (string * string))
    (acc : gmap string string) (k v : string) :
  foldl (λ result kv, <[kv.1 := kv.2]> result) acc l !! k = Some v →
  (k, v) ∈ l ∨ acc !! k = Some v.
Proof.
  revert acc. induction l as [|[k0 v0] l IH]; intros acc; cbn; [by right|].
  intros Hl. apply IH in Hl as [Hl|Hl]; [left; by right|].
  apply lookup_insert_Some in Hl as [[<- <-]|[_ Hl]]; [left; by left|by right].
Qed.

Lemma foldl_assign_is_Some (l : list (string * string))
    (acc : gmap string string) (k : string) :
  k ∈ l.*1 ∨ is_Some (acc !! k) →
  is_Some (foldl (λ result kv, <[kv.1 := kv.2]> result) acc l !! k).
Proof.
  revert acc. induction l as [|[k0 v0] l IH]; intros acc; cbn.
  - intros [Hk|Hk]; [by apply elem_of_nil in Hk|done].
  - intros [Hk|Hk]; apply IH.
    + apply elem_of_cons in Hk as [->|Hk]; [right|by left].
      rewrite lookup_insert_eq. eauto.
    + right. destruct (decide (k0 = k)) as [->|Hne].
      * rewrite lookup_insert_eq. eauto.
      * by rewrite lookup_insert_ne.
Qed.

Lemma foldl_assign_size (l : list (string * string))
    (acc : gmap string string) :
  size (foldl (λ result kv, <[kv.1 := kv.2]> result) acc l)
  ≤ size acc + length l.
Proof.
  revert acc. induction l as [|[k0 v0] l IH]; intros acc; cbn; [lia|].
  etrans; [apply IH|].
  destruct (acc !! k0) eqn:Hk.
  - rewrite map_size_insert_Some by eauto. lia.
  - rewrite map_size_insert_None by done. lia.
Qed.

Lemma fmap_prod_map_id (l : list (string * string)) :
  prod_map (λ x : string, x) (λ x : string, x) <$> l = l.
Proof. induction l as [|[k v] l IH]; [done|]. cbn. by f_equal. Qed.

Section tag_maps.
Context {Rng : MapRange}.

(** The entries [copyAndSanitizeMap] writes, in the order it writes them. *)
Lemma copyAndSanitizeMap_fold (s : scope) (tags : tagmap) :
  copyAndSanitizeMap s tags =
  Some (foldl (λ result kv, <[kv.1 := kv.2]> result) ∅
          (prod_map (Key (sanitizer s)) (Value (sanitizer s))
             <$> go_range (tag_entries tags))).
Proof. unfold copyAndSanitizeMap. by rewrite foldl_fmap. Qed.

Lemma go_range_elem_of {V} (m : gmap string V) (k : string) (v : V) :
  (k, v) ∈ go_range m ↔ m !! k = Some v.
Proof. by rewrite go_range_perm, elem_of_map_to_list. Qed.

Lemma copyAndSanitizeMap_injective (s : scope) (tags : tagmap) :
  (∀ k1 k2,
     is_Some (tag_entries tags !! k1) → is_Some (tag_entries tags !! k2) →
     Key (sanitizer s) k1 = Key (sanitizer s) k2 → k1 = k2) →
  copyAndSanitizeMap s tags =
  Some (list_to_map
          (prod_map (Key (sanitizer s)) (Value (sanitizer s))
             <$> go_range (tag_entries tags))) ∧
  NoDup (prod_map (Key (sanitizer s)) (Value (sanitizer s))
           <$> go_range (tag_entries tags)).*1.
Proof.
  intros Hinj.
  assert (Hnd : NoDup (prod_map (Key (sanitizer s)) (Value (sanitizer s))
                         <$> go_range (tag_entries tags)).*1).
  { rewrite <- list_fmap_compose.
    replace (fst ∘ prod_map (Key (sanitizer s)) (Value (sanitizer s)))
      with (Key (sanitizer s) ∘ (fst : string * string → string)) by done.
    rewrite list_fmap_compose. apply NoDup_fmap_2_strong.
    - intros k1 k2 Hk1 Hk2. apply Hinj.
      + apply list_elem_of_fmap in Hk1 as ([k v]&->&Hin).
        apply go_range_elem_of in Hin. cbn. eauto.
      + apply list_elem_of_fmap in Hk2 as ([k v]&->&Hin).
        apply go_range_elem_of in Hin. cbn. eauto.
    - apply go_range_NoDup. }
  split; [|done].
  rewrite copyAndSanitizeMap_fold, foldl_assign by done.
  by rewrite (right_id_L ∅ (∪)).
Qed.

(** X1: [copyAndSanitizeMap] never returns the nil map, also for a nil
    input.  The keys of the copy are exactly the sanitized keys of the
    input; every entry of the copy carries the sanitized value of an input
    entry whose key sanitizes to the entry's key; the copy has at most as
    many entries as the input; and with the no-op sanitizer the copy has
    the entries of the input.  All of this holds for every iteration
    order of the input map. *)
Theorem copyAndSanitizeMap_keys_and_values (s : scope) (tags : tagmap) :
  ∃ copy : gmap string string,
    copyAndSanitizeMap s tags = Some copy ∧
    (∀ k', is_Some (copy !! k') ↔
           ∃ k, is_Some (tag_entries tags !! k) ∧ Key (sanitizer s) k = k') ∧
    (∀ k' v', copy !! k' = Some v' →
              ∃ k v, tag_entries tags !! k = Some v ∧
                     Key (sanitizer s) k = k' ∧ Value (sanitizer s) v = v') ∧
    size copy ≤ tag_len tags ∧
    (sanitizer s = NewNoOpSanitizer → copy = tag_entries tags).
Proof.
  eexists. split; [apply copyAndSanitizeMap_fold|].
  assert (Hval : ∀ k' v',
    foldl (λ result kv, <[kv.1 := kv.2]> result) (∅ : gmap string string)
      (prod_map (Key (sanitizer s)) (Value (sanitizer s))
         <$> go_range (tag_entries tags)) !! k' = Some v' →
    ∃ k v, tag_entries tags !! k = Some v ∧
           Key (sanitizer s) k = k' ∧ Value (sanitizer s) v = v').
  { intros k' v' Hl. apply foldl_assign_lookup in Hl as [Hl|Hl]; [|done].
    apply list_elem_of_fmap in Hl as ([k v]&[= -> ->]&Hin).
    apply go_range_elem_of in Hin. eauto. }
  split; [|split; [exact Hval|split]].
  - intros k'. split.
    + intros [v' Hl]. destruct (Hval _ _ Hl) as (k&v&?&?&?). eauto.
    + intros (k&[v Hk]&<-). apply foldl_assign_is_Some. left.
      apply list_elem_of_fmap. exists (Key (sanitizer s) k, Value (sanitizer s) v).
      split; [done|]. apply list_elem_of_fmap. exists (k, v).
      split; [done|]. by apply go_range_elem_of.
  - etrans; [apply foldl_assign_size|]. rewrite map_size_empty, length_fmap.
    unfold tag_len. rewrite (go_range_perm _ (tag_entries tags)).
    by rewrite length_map_to_list.
  - intros Hnoop.
    destruct (copyAndSanitizeMap_injective s tags) as [Heq _].
    { rewrite Hnoop. cbn. auto. }
    rewrite copyAndSanitizeMap_fold in Heq. injection Heq as ->.
    rewrite Hnoop. cbn.
    rewrite <- (go_range_to_map (tag_entries tags)) at 2. f_equal.
    apply fmap_prod_map_id.
Qed.

End tag_maps.

Section tag_algebra.
Context {Rng : MapRange}.

(** X2: when the key sanitizer maps the keys of the input to pairwise
    different keys, [copyAndSanitizeMap] loses nothing: every input entry
    (k, v) is in the copy as (Key k, Value v), and the copy has as many
    entries as the input. *)
Theorem copyAndSanitizeMap_keeps_every_entry (s : scope) (tags : tagmap) :
  (∀ k1 k2,
     is_Some (tag_entries tags !! k1) → is_Some (tag_entries tags !! k2) →
     Key (sanitizer s) k1 = Key (sanitizer s) k2 → k1 = k2) →
  ∃ copy : gmap string string,
    copyAndSanitizeMap s tags = Some copy ∧
    (∀ k v, tag_entries tags !! k = Some v →
            copy !! Key (sanitizer s) k = Some (Value (sanitizer s) v)) ∧
    size copy = tag_len tags.
Proof.
  intros Hinj.
  destruct (copyAndSanitizeMap_injective s tags Hinj) as [Heq Hnd].
  eexists. split; [exact Heq|]. split.
  - intros k v Hk. apply elem_of_list_to_map; [done|].
    apply list_elem_of_fmap. exists (k, v). split; [done|].
    by apply go_range_elem_of.
  - rewrite map_size_list_to_map by done. rewrite length_fmap.
    unfold tag_len. rewrite (go_range_perm _ (tag_entries tags)).
    by rewrite length_map_to_list.
Qed.

(** X3: the algebra of [mergeRightTags].  The result is the nil map
    exactly when the left map is nil and the right map is empty or nil; an
    empty right map gives back the left map and an empty left map the
    right one; merging a map with itself changes no entry; and as far as
    entries go merging is associative, so tags merged along a chain of
    subscopes do not depend on how the merges are grouped. *)
Theorem mergeRightTags_algebra (a b c : tagmap) :
  (mergeRightTags a b = None ↔ a = None ∧ tag_entries b = ∅) ∧
  (tag_entries b = ∅ → mergeRightTags a b = a) ∧
  (tag_entries a = ∅ → tag_entries b ≠ ∅ → mergeRightTags a b = b) ∧
  tag_entries (mergeRightTags a a) = tag_entries a ∧
  tag_entries (mergeRightTags (mergeRightTags a b) c) =
  tag_entries (mergeRightTags a (mergeRightTags b c)).
Proof.
  assert (Hright : tag_entries b = ∅ → mergeRightTags a b = a).
  { intros Hb. unfold mergeRightTags.
    apply tag_len_0 in Hb. rewrite Hb. by destruct a, b. }
  assert (Hleft : tag_entries a = ∅ → tag_entries b ≠ ∅ →
                  mergeRightTags a b = b).
  { intros Ha Hb. unfold mergeRightTags.
    destruct (tag_len b =? 0) eqn:Eb; [by apply tag_len_0 in Eb|].
    apply tag_len_0 in Ha. rewrite Ha. by destruct a, b. }
  split; [|split; [done|split; [done|split]]].
  - split.
    + intros Hnone.
      destruct (decide (tag_entries b = ∅)) as [Hb|Hb].
      * rewrite Hright in Hnone by done. done.
      * destruct (decide (tag_entries a = ∅)) as [Ha|Ha].
        -- rewrite Hleft in Hnone by done. subst b. by destruct Hb.
        -- by rewrite mergeRightTags_both in Hnone.
    + intros [-> Hb]. by rewrite Hright.
  - rewrite mergeRightTags_entries. apply (idemp_L (∪)).
  - rewrite !mergeRightTags_entries. apply (assoc_L (∪)).
Qed.

End tag_algebra.

(** The theorem on a map with two keys, under a sanitizer that puts an
    underscore before every key. *)
Lemma copyAndSanitizeMap_keeps_every_entry_witness :
  let s :=
    self (@newRootScope range_ascending
            (mkScopeOptions None "" None None "" None
               (Some (mkSanitizer (λ n, n) (λ k, "_" +:+ k) (λ v, v)))) 0) in
  let tags := Some ({["env" := "prod"; "region" := "us"]} : gmap string string) in
  ∃ copy : gmap string string,
    @copyAndSanitizeMap range_ascending s tags = Some copy ∧
    (∀ k v, tag_entries tags !! k = Some v →
            copy !! Key (sanitizer s) k = Some (Value (sanitizer s) v)) ∧
    size copy = tag_len tags.
Proof.
  apply (@copyAndSanitizeMap_keeps_every_entry range_ascending).
  intros k1 k2 _ _ Heq. cbn in Heq. by injection Heq.
Defined.

(** ** What a call touches, and what lasts *)

Lemma added_app (st : state) (s : scope) (n : nat) (evs : list Event) :
  added st (mkState s n (trace st ++ evs)) = evs.
Proof. unfold added. cbn. by rewrite drop_app_length. Qed.








(** The equation of the call in the goal, with its lookups split. *)
Ltac use_spec :=
  unfold run_op;
  first [ rewrite Counter_spec | rewrite Gauge_spec | rewrite Timer_spec
        | rewrite Histogram_spec | rewrite report_spec
        | rewrite cachedReport_spec | rewrite reportLoopRun_spec
        | rewrite Close_spec ];
  cbv zeta; split_lookups;
  cbn [fst snd self next_addr trace logged mark_closed].

Section frame.
Context {Acc : identity.Accumulator} {Rng : MapRange}.

Lemma run_op_trace (op : Op) (st : state) :
  ∃ evs, trace (run_op op st) = trace st ++ evs.
Proof. op_cases op st; rewrite <- ?app_assoc; eexists; reflexivity. Qed.

Lemma run_op_closed_mono (op : Op) (st : state) :
  closed (status (self st)) = true →
  closed (status (self (run_op op st))) = true.
Proof.
  intros Hc. destruct (is_close op) eqn:Hop.
  - destruct op; try discriminate. cbn [run_op]. by rewrite Close_closed.
  - by rewrite run_op_status_eq.
Qed.

(** X4: every call touches only its own part of the scope.  No call
    changes the fields set at construction; only [Close] changes the
    status; only [Counter] changes the counter map and slice, only
    [Gauge] the gauge map and slice, only [Timer] the timer map, only
    [Histogram] the histogram map and slice and the bucket cache; only the
    four registration calls allocate; and a call only appends to the log
    of calls made so far. *)
Theorem calls_touch_only_their_part (op : Op) (st : state) :
  let s := self st in
  let s' := self (run_op op st) in
  same_config s s' ∧
  (is_close op = false → status s' = status s) ∧
  match op with
  | OpCounter _ => True
  | _ => counters s' = counters s ∧ countersSlice s' = countersSlice s
  end ∧
  match op with
  | OpGauge _ => True
  | _ => gauges s' = gauges s ∧ gaugesSlice s' = gaugesSlice s
  end ∧
  match op with
  | OpTimer _ => True
  | _ => timers s' = timers s
  end ∧
  match op with
  | OpHistogram _ _ => True
  | _ => histograms s' = histograms s ∧
         histogramsSlice s' = histogramsSlice s ∧
         bucketCache s' = bucketCache s
  end ∧
  match op with
  | OpCounter _ | OpGauge _ | OpTimer _ | OpHistogram _ _ => True
  | _ => next_addr (run_op op st) = next_addr st
  end ∧
  ∃ evs, trace (run_op op st) = trace st ++ evs.
Proof.
  intros s s'. subst s s'.
  split; [apply run_op_config|]. split; [apply run_op_status_eq|].
  repeat (split; [destruct op; try exact I; use_spec; done|]).
  apply run_op_trace.
Qed.

(** X5: what lasts for the lifetime of a scope, whatever calls it
    receives.  The prefix, separator, tags, reporters, default buckets and
    sanitizer never change, so a name is always qualified the same way and
    [Capabilities] always answers the same; an instance once registered
    under a name stays registered under it, and an entry of the bucket
    cache stays; addresses handed out are never handed out again; a closed
    scope never reopens; and the log only grows. *)
Theorem scope_lifetime_stability (ops : list Op) (st : state) :
  let st' := run ops st in
  same_config (self st) (self st') ∧
  (∀ name, fullyQualifiedName (self st') name
           = fullyQualifiedName (self st) name) ∧
  scope_Capabilities (self st') = scope_Capabilities (self st) ∧
  (∀ op i, registered (self st) op = Some i →
           registered (self st') op = Some i) ∧
  (∀ bid x, bucketCache (self st) !! bid = Some x →
            bucketCache (self st') !! bid = Some x) ∧
  next_addr st ≤ next_addr st' ∧
  (closed (status (self st)) = true → closed (status (self st')) = true) ∧
  ∃ evs, trace st' = trace st ++ evs.
Proof.
  intros st'. subst st'.
  pose proof (run_config ops st) as Hcfg.
  split; [exact Hcfg|].
  destruct Hcfg as (Hsep&Hpre&_&_&_&Hbase&_).
  split. { intros name. unfold fullyQualifiedName. by rewrite Hsep, Hpre. }
  split. { unfold scope_Capabilities. by rewrite Hbase. }
  split. { intros op i. apply run_registered. }
  split. { intros bid x. apply run_cache_keeps. }
  clear Hsep Hpre Hbase.
  revert st. induction ops as [|op ops IH]; intros st.
  - split; [done|]. split; [done|]. exists []. by rewrite app_nil_r.
  - rewrite run_cons. destruct (IH (run_op op st)) as (Hn&Hc&evs&Ht).
    destruct (run_op_trace op st) as [evs0 Ht0].
    split; [pose proof (run_op_next_addr op st); lia|].
    split; [intros Hcl; by apply Hc, run_op_closed_mono|].
    exists (evs0 ++ evs). by rewrite Ht, Ht0, app_assoc.
Qed.


End frame.

(** ** Reporting passes over the lifetime of a root scope *)

Section passes.
Context {Acc : identity.Accumulator} {Rng : MapRange}.

Lemma has_reporter_config (s s' : scope) :
  same_config s s' → has_reporter s' = has_reporter s.
Proof. intros (_&_&_&Hr&Hc&_). unfold has_reporter. by rewrite Hr, Hc. Qed.

(** The passes one call adds. *)
Lemma run_op_pass_count (op : Op) (st : state) :
  status_inv st →
  let new :=
    if closed (status (self st)) then 0
    else match op with
         | OpReportLoopRun | OpClose => if has_reporter (self st) then 1 else 0
         | _ => 0
         end in
  count is_report (trace (run_op op st)) = count is_report (trace st) + new ∧
  count is_flush (trace (run_op op st)) = count is_flush (trace st) + new.
Proof.
  intros [Hq _]. cbv zeta.
  destruct (report_pass_count (self st)) as [Hr Hf].
  destruct op; use_spec; rewrite ?count_app, ?Hr, ?Hf;
    try (rewrite Heqb in Hq; rewrite Hq in *; discriminate);
    try (split; count_events; fail).
  all: split; unfold closer_call; repeat case_match; cbn; lia.
Qed.

Lemma run_closed_pass_count (ops : list Op) (st : state) :
  status_inv st → closed (status (self st)) = true →
  count is_report (trace (run ops st)) = count is_report (trace st) ∧
  count is_flush (trace (run ops st)) = count is_flush (trace st).
Proof.
  revert st. induction ops as [|op ops IH]; intros st Hinv Hc; [done|].
  rewrite run_cons.
  destruct (run_op_pass_count op st Hinv) as [Hr Hf]. rewrite Hc in Hr, Hf.
  destruct (run_op_status op st Hinv) as [Hinv' Hc']. rewrite Hc in Hc'.
  destruct (IH _ Hinv' Hc') as [-> ->]. lia.
Qed.

Lemma run_open_pass_count (ops : list Op) (st : state) :
  status_inv st → closed (status (self st)) = false →
  let new := if has_reporter (self st) then passes ops else 0 in
  count is_report (trace (run ops st)) = count is_report (trace st) + new ∧
  count is_flush (trace (run ops st)) = count is_flush (trace st) + new.
Proof.
  revert st. induction ops as [|op ops IH]; intros st Hinv Hc; cbv zeta.
  { unfold run. cbn. destruct (has_reporter (self st)); lia. }
  rewrite run_cons.
  destruct (run_op_pass_count op st Hinv) as [Hr Hf]. rewrite Hc in Hr, Hf.
  destruct (run_op_status op st Hinv) as [Hinv' Hc']. rewrite Hc in Hc'.
  pose proof (has_reporter_config _ _ (run_op_config op st)) as Hhr.
  destruct (is_close op) eqn:Hop.
  - destruct op; try discriminate.
    destruct (run_closed_pass_count ops _ Hinv' Hc') as [-> ->].
    cbn [passes]. rewrite Hr, Hf. done.
  - destruct (IH _ Hinv' Hc') as [Hr' Hf']. rewrite Hr', Hf', Hr, Hf, Hhr.
    destruct op; try discriminate; cbn [passes];
      destruct (has_reporter (self st)); lia.
Qed.

(** X7: the reporting passes of a root scope, counted over its whole log.
    With a push or a cached reporter configured, the log holds exactly one
    registry report and one flush for each tick that came before the first
    [Close], and one more for that [Close]; ticks and further calls of
    [Close] after it add none.  Without a reporter the log holds no report
    and no flush at all. *)
Theorem reporting_passes_counted
    (opts : ScopeOptions) (interval : Z) (ops : list Op) :
  let st0 := newRootScope opts interval in
  let st := run ops st0 in
  let expected := if has_reporter (self st0) then passes ops else 0 in
  count is_report (trace st) = expected ∧
  count is_flush (trace st) = expected ∧
  has_reporter (self st0) =
    match Reporter opts, CachedReporter opts with
    | None, None => false
    | _, _ => true
    end.
Proof.
  intros st0 st expected.
  destruct (run_open_pass_count ops st0 (newRootScope_status opts interval))
    as [Hr Hf]; [done|].
  fold st in Hr, Hf. rewrite Hr, Hf.
  assert (H0 : trace st0 = [] ∨ trace st0 = [EvGoReportLoop interval]).
  { unfold st0, newRootScope. cbn [trace].
    destruct (0 <? interval)%Z; auto. }
  split; [|split; [|done]];
    destruct H0 as [-> | ->]; cbn; done.
Qed.

End passes.

(** ** Which reporter a scope uses *)

Section reporter_choice.
Context {Acc : identity.Accumulator} {Rng : MapRange}.

Lemma run_op_silent (op : Op) (st : state) :
  reporter (self st) = None → cachedReporter (self st) = None →
  baseReporter (self st) = None →
  count is_reporter_call (trace (run_op op st)) =
  count is_reporter_call (trace st).
Proof.
  intros Hr Hc Hb.
  op_cases op st;
    unfold report_events, cachedReport_events, report_pass, closer_call,
      cached_call, cached_histogram_call;
    rewrite ?Hr, ?Hc, ?Hb, ?count_app, ?count_fmap_none by done; cbn; lia.
Qed.

Lemma run_op_no_push_pass (op : Op) (st : state) :
  reporter (self st) = None →
  count is_push_pass (trace (run_op op st)) = count is_push_pass (trace st).
Proof.
  intros Hr.
  op_cases op st;
    unfold report_events, cachedReport_events, report_pass;
    rewrite ?Hr, ?count_app, ?count_fmap_none by done; count_events.
Qed.

(** X8: a root scope built without a reporter never calls out.  Whatever
    calls it receives, its log holds no call to a reporter, to the
    registry's report fan-out or to a closer, and no [Allocate...]; its
    [Capabilities] are the empty set; and [Close] returns nil.  The scope
    of [NewTestScope] is such a scope, and starts no reporting loop. *)
Theorem root_without_reporter_is_silent
    (t : tagmap) (p sep : string) (db : option Buckets)
    (so : option SanitizeOptions) (interval : Z) (ops : list Op) :
  let st := run ops (newRootScope (mkScopeOptions t p None None sep db so)
                       interval) in
  count is_reporter_call (trace st) = 0 ∧
  scope_Capabilities (self st) = capabilitiesNone ∧
  (Close st).1 = Returned None ∧
  NewTestScope p t = newRootScope (mkScopeOptions t p None None "" None None) 0 ∧
  trace (NewTestScope p t) = [].
Proof.
  intros st. subst st.
  set (st0 := newRootScope (mkScopeOptions t p None None sep db so) interval).
  assert (Hcfg : ∀ ops', reporter (self (run ops' st0)) = None ∧
                         cachedReporter (self (run ops' st0)) = None ∧
                         baseReporter (self (run ops' st0)) = None).
  { intros ops'. destruct (run_config ops' st0) as (_&_&_&Hr&Hc&Hb&_).
    by rewrite Hr, Hc, Hb. }
  assert (Hquiet : ∀ ops', count is_reporter_call (trace (run ops' st0)) = 0).
  { intros ops'. induction ops' as [|op ops' IH] using rev_ind.
    - unfold run, st0, newRootScope. cbn [foldl trace].
      by destruct (0 <? interval)%Z.
    - destruct (Hcfg ops') as (Hr&Hc&Hb).
      by rewrite run_snoc, run_op_silent. }
  destruct (Hcfg ops) as (Hr&Hc&Hb).
  split; [apply Hquiet|].
  split. { unfold scope_Capabilities. by rewrite Hb. }
  split.
  { pose proof (run_status (mkScopeOptions t p None None sep db so)
                  interval ops) as Hinv. fold st0 in Hinv.
    destruct (closed (status (self (run ops st0)))) eqn:Hcl.
    - by rewrite Close_closed.
    - rewrite Close_open by done. unfold closer_result. by rewrite Hb. }
  split; done.
Qed.

(** X9: a root scope built with a cached reporter [c] and no push
    reporter reports through [c] alone.  Its base reporter is [c]; every
    reporting pass (a tick of the loop, the final pass of [Close]) is the
    registry's [CachedReport] followed by [c.Flush()]; its log never holds
    a call of the push path; [Capabilities] returns the capabilities of
    [c]; and a first [Close] returns what the closer of [c] returns, nil
    when [c] has no closer. *)
Theorem cached_reporter_drives_reporting
    (t : tagmap) (p sep : string) (c : CachedStatsReporter)
    (db : option Buckets) (so : option SanitizeOptions) (interval : Z)
    (ops : list Op) :
  let st := run ops (newRootScope (mkScopeOptions t p None (Some c) sep db so)
                       interval) in
  let s := self st in
  (reporter s = None ∧ cachedReporter s = Some c ∧
   baseReporter s = Some (BaseOfCachedReporter c)) ∧
  reportRegistryWithLock st =
    (Returned tt,
     logged st [EvRegistryCachedReport; EvCachedReporterFlush c]) ∧
  (closed (status s) = false →
     reportLoopRun st =
     (Returned tt,
      logged st [EvRLock status_mu; EvRegistryCachedReport;
                 EvCachedReporterFlush c; EvRUnlock status_mu]) ∧
     (Close st).1 =
       Returned (match csr_closer c with Some e => e | None => None end) ∧
     added st (Close st).2 =
       [EvLock status_mu; EvCloseQuit; EvRegistryCachedReport;
        EvCachedReporterFlush c]
         ++ match csr_closer c with
            | Some _ => [EvCloserClose (BaseOfCachedReporter c)]
            | None => []
            end
         ++ [EvUnlock status_mu]) ∧
  count is_push_pass (trace st) = 0 ∧
  scope_Capabilities s = csr_capabilities c.
Proof.
  intros st s. subst s st.
  set (opts := mkScopeOptions t p None (Some c) sep db so).
  set (st0 := newRootScope opts interval).
  assert (Hpush : ∀ ops', count is_push_pass (trace (run ops' st0)) = 0).
  { intros ops'. induction ops' as [|op ops' IH] using rev_ind.
    - unfold run, st0, newRootScope. cbn [foldl trace].
      by destruct (0 <? interval)%Z.
    - rewrite run_snoc, run_op_no_push_pass; [done|].
      destruct (run_config ops' st0) as (_&_&_&Hr&_). by rewrite Hr. }
  set (st := run ops st0). set (s := self st).
  pose proof (run_status opts interval ops) as Hinv.
  fold st0 in Hinv. fold st in Hinv.
  destruct (run_config ops st0) as (_&_&_&Hr&Hcr&Hb&_).
  fold st in Hr, Hcr, Hb. fold s in Hr, Hcr, Hb.
  cbn [st0 newRootScope opts self set_tags reporter cachedReporter
       baseReporter Reporter CachedReporter] in Hr, Hcr, Hb.
  assert (Hpass : report_pass s
                  = [EvRegistryCachedReport; EvCachedReporterFlush c]).
  { unfold report_pass. by rewrite Hr, Hcr. }
  split; [done|]. split.
  { rewrite reportRegistryWithLock_spec. fold s. by rewrite Hpass. }
  split.
  { intros Hopen. split; [|split].
    - rewrite (reportLoopRun_open st Hopen). fold s. by rewrite Hpass.
    - rewrite (Close_open st Hinv Hopen). cbn [fst]. unfold closer_result.
      fold s. by rewrite Hb.
    - rewrite (Close_open st Hinv Hopen). cbn [snd]. rewrite added_app.
      fold s. rewrite Hpass. unfold closer_call. rewrite Hb. cbn.
      by case_match. }
  split; [apply Hpush|]. unfold scope_Capabilities. by rewrite Hb.
Qed.

End reporter_choice.

(** ** Allocations on the cached reporter *)

Section allocations.
Context {Acc : identity.Accumulator} {Rng : MapRange}.

(** The allocations one call adds, against the instances it adds. *)
Lemma run_op_allocations (op : Op) (st : state) :
  let s := self st in
  let s' := self (run_op op st) in
  let per := λ n : nat, match cachedReporter s with Some _ => n | None => 0 end in
  count is_AllocateCounter (trace (run_op op st))
    + per (length (countersSlice s))
  = count is_AllocateCounter (trace st) + per (length (countersSlice s')) ∧
  count is_AllocateGauge (trace (run_op op st)) + per (length (gaugesSlice s))
  = count is_AllocateGauge (trace st) + per (length (gaugesSlice s')) ∧
  count is_AllocateTimer (trace (run_op op st)) + per (size (timers s))
  = count is_AllocateTimer (trace st) + per (size (timers s')) ∧
  count is_AllocateHistogram (trace st) + per (length (histogramsSlice s'))
  ≤ count is_AllocateHistogram (trace (run_op op st))
      + per (length (histogramsSlice s)) ∧
  (cachedReporter s = None →
   count is_AllocateHistogram (trace (run_op op st))
   = count is_AllocateHistogram (trace st)).
Proof.
  cbv zeta. destruct (cachedReporter (self st)) as [cr|] eqn:Hcr;
    op_cases op st;
    unfold report_events, cachedReport_events, report_pass, closer_call,
      cached_call, cached_histogram_call;
    rewrite ?Hcr, ?count_app, ?count_fmap_none by done;
    cbn [set_counters set_gauges set_timers set_histograms set_bucketCache
         set_status countersSlice gaugesSlice timers histogramsSlice];
    rewrite ?length_app, ?map_size_insert_None by done;
    repeat case_match; cbn; repeat split; try lia; done.
Qed.

Lemma run_allocations (ops : list Op) (st : state) :
  let s := self st in
  let s' := self (run ops st) in
  let per := λ n : nat, match cachedReporter s with Some _ => n | None => 0 end in
  count is_AllocateCounter (trace (run ops st)) + per (length (countersSlice s))
  = count is_AllocateCounter (trace st) + per (length (countersSlice s')) ∧
  count is_AllocateGauge (trace (run ops st)) + per (length (gaugesSlice s))
  = count is_AllocateGauge (trace st) + per (length (gaugesSlice s')) ∧
  count is_AllocateTimer (trace (run ops st)) + per (size (timers s))
  = count is_AllocateTimer (trace st) + per (size (timers s')) ∧
  count is_AllocateHistogram (trace st) + per (length (histogramsSlice s'))
  ≤ count is_AllocateHistogram (trace (run ops st))
      + per (length (histogramsSlice s)) ∧
  (cachedReporter s = None →
   count is_AllocateHistogram (trace (run ops st))
   = count is_AllocateHistogram (trace st)).
Proof.
  cbv zeta. revert st. induction ops as [|op ops IH]; intros st.
  { unfold run. cbn [foldl]. repeat split; lia. }
  rewrite run_cons.
  destruct (run_op_allocations op st) as (Hc&Hg&Ht&Hh&Hn).
  destruct (IH (run_op op st)) as (Hc'&Hg'&Ht'&Hh'&Hn').
  destruct (run_op_config op st) as (_&_&_&_&Hcr&_).
  rewrite Hcr in Hc', Hg', Ht', Hh', Hn'.
  repeat split; try lia.
  intros Hnone. rewrite Hn', Hn; done.
Qed.

(** X10: one allocation per registered name.  In every state a scope
    reaches from its construction, with a cached reporter configured the
    log holds exactly one [AllocateCounter] per registered counter, one
    [AllocateGauge] per registered gauge and one [AllocateTimer] per
    registered timer, and at least one [AllocateHistogram] per registered
    histogram (a registration that panicked on its buckets had already
    made its call); the number of registered instances of a kind is the
    number of names in its map.  Without a cached reporter the scope
    adds no allocation to the log.  (Counts are relative to the log the
    scope starts with.) *)
Theorem allocations_match_registrations
    (s0 : scope) (n0 : nat) (tr0 : list Event) (ops : list Op) :
  let st := run ops (mkState (unregistered s0) n0 tr0) in
  let s := self st in
  let per := λ n : nat, match cachedReporter s0 with Some _ => n | None => 0 end in
  count is_AllocateCounter (trace st)
    = count is_AllocateCounter tr0 + per (size (counters s)) ∧
  count is_AllocateGauge (trace st)
    = count is_AllocateGauge tr0 + per (size (gauges s)) ∧
  count is_AllocateTimer (trace st)
    = count is_AllocateTimer tr0 + per (size (timers s)) ∧
  count is_AllocateHistogram tr0 + per (size (histograms s))
    ≤ count is_AllocateHistogram (trace st) ∧
  (cachedReporter s0 = None →
   count is_AllocateHistogram (trace st) = count is_AllocateHistogram tr0) ∧
  length (countersSlice s) = size (counters s) ∧
  length (gaugesSlice s) = size (gauges s) ∧
  length (histogramsSlice s) = size (histograms s).
Proof.
  intros st s per.
  destruct (run_allocations ops (mkState (unregistered s0) n0 tr0))
    as (Hc&Hg&Ht&Hh&Hn).
  fold st in Hc, Hg, Ht, Hh, Hn. fold s in Hc, Hg, Ht, Hh.
  cbn [self unregistered set_counters set_gauges set_histograms set_timers
       cachedReporter countersSlice gaugesSlice histogramsSlice timers trace
       length] in Hc, Hg, Ht, Hh, Hn.
  rewrite map_size_empty in Ht.
  destruct (run_metrics ops _ (unregistered_metrics s0 n0 tr0))
    as ((Hcp&_)&(Hgp&_)&(Hhp&_)&_).
  fold st in Hcp, Hgp, Hhp. fold s in Hcp, Hgp, Hhp.
  assert (Hlc : length (countersSlice s) = size (counters s)).
  { by rewrite Hcp, length_fmap, length_map_to_list. }
  assert (Hlg : length (gaugesSlice s) = size (gauges s)).
  { by rewrite Hgp, length_fmap, length_map_to_list. }
  assert (Hlh : length (histogramsSlice s) = size (histograms s)).
  { by rewrite Hhp, length_fmap, length_map_to_list. }
  rewrite <- Hlc, <- Hlg, <- Hlh.
  unfold per. destruct (cachedReporter s0); repeat split; try lia; try done.
Qed.

End allocations.

(** ** What registered instances and cache entries carry *)

Section carried.
Context {Acc : identity.Accumulator} {Rng : MapRange}.

Lemma run_op_named (op : Op) (st : state) :
  named_inv (self st) → named_inv (self (run_op op st)).
Proof.
  unfold named_inv. intros (Hc&Hg&Ht&Hh).
  op_cases op st; unfold cached_handle, fullyQualifiedName in *;
    cbn [counters gauges timers histograms prefix separator tags reporter
         cachedReporter set_counters set_gauges set_timers set_histograms
         set_bucketCache set_status] in *;
    (split; [|split; [|split]]); intros k x Hx;
    try (apply lookup_insert_Some in Hx as [[<- <-]|[_ Hx]]);
    first [ done | by apply Hc | by apply Hg | by apply Ht | by apply Hh ].
Qed.

Lemma run_named (ops : list Op) (st0 : state) :
  named_inv (self st0) → named_inv (self (run ops st0)).
Proof. intros Hinit. apply (run_ind (λ st, named_inv (self st))); [done|].
  apply run_op_named. Qed.

Lemma run_op_cache_keys (op : Op) (st : state) :
  cache_keys_inv (self st) → cache_keys_inv (self (run_op op st)).
Proof.
  unfold cache_keys_inv. intros (Hcache&Hhist).
  op_cases op st;
    cbn [bucketCache histograms cachedReporter set_counters set_gauges
         set_timers set_histograms set_bucketCache set_status];
    try (split; assumption).
  - (* the storage is found in the cache *)
    split; [assumption|]. intros k h Hk.
    apply lookup_insert_Some in Hk as [[_ <-]|[_ Hk]]; cbn; eauto.
  - (* the storage is built and cached *)
    split.
    + intros bid x Hx.
      apply lookup_insert_Some in Hx as [[<- <-]|[_ Hx]]; [|by apply Hcache].
      cbn. split; [done|]. split; [done|].
      unfold cached_histogram_handle. by destruct (cachedReporter (self st)).
    + intros k h Hk.
      apply lookup_insert_Some in Hk as [[_ <-]|[_ Hk]]; cbn.
      * eexists. apply lookup_insert_eq.
      * destruct (Hhist _ _ Hk) as [bid Hbid]. exists bid.
        rewrite lookup_insert_ne; [done|]. congruence.
Qed.

(** X11: what every registered instance carries.  In every state a scope
    reaches from its construction, a timer or histogram registered under
    the sanitized name k has the fully-qualified name of k, the tags of
    the scope and its push reporter; and a counter, gauge or timer
    registered under k holds the handle the scope's cached reporter gave
    for the fully-qualified name of k and the scope's tags, and no handle
    when the scope has no cached reporter. *)
Theorem instances_carry_name_and_tags
    (s0 : scope) (n0 : nat) (tr0 : list Event) (ops : list Op) :
  let s := self (run ops (mkState (unregistered s0) n0 tr0)) in
  let handle := λ k,
    match cachedReporter s with
    | Some cr => Some (mkCachedMetric cr (fullyQualifiedName s k) (tags s))
    | None => None
    end in
  (∀ k c, counters s !! k = Some c → counter_cachedCount c = handle k) ∧
  (∀ k g, gauges s !! k = Some g → gauge_cachedGauge g = handle k) ∧
  (∀ k t, timers s !! k = Some t →
          timer_name t = fullyQualifiedName s k ∧ timer_tags t = tags s ∧
          timer_reporter t = reporter s ∧ timer_cachedTimer t = handle k) ∧
  (∀ k h, histograms s !! k = Some h →
          histogram_name h = fullyQualifiedName s k ∧
          histogram_tags h = tags s ∧ histogram_reporter h = reporter s).
Proof.
  intros s handle. apply (run_named ops).
  unfold named_inv, unregistered. cbn.
  (split; [|split; [|split]]); intros ? ? Hx; by rewrite lookup_empty in Hx.
Qed.

(** X12: what the bucket cache keeps.  In every state a scope reaches
    from its construction with an empty cache, each cache entry sits under
    the identity of the buckets it was built for and is tagged with the
    type of those buckets; it holds a cached histogram handle exactly when
    the scope has a cached reporter; and the storage of every registered
    histogram is an entry of the cache. *)
Theorem cache_entries_match_their_key
    (s0 : scope) (n0 : nat) (tr0 : list Event) (ops : list Op) :
  let s := self (run ops (mkState (set_bucketCache ∅ (unregistered s0))
                            n0 tr0)) in
  (∀ bid x, bucketCache s !! bid = Some x →
            getBucketsIdentity (storage_buckets x) = Returned bid ∧
            storage_htype x = htype_of (storage_buckets x) ∧
            (storage_cachedHistogram x = None ↔ cachedReporter s = None)) ∧
  (∀ k h, histograms s !! k = Some h →
          ∃ bid, bucketCache s !! bid = Some (histogram_storage h)).
Proof.
  intros s.
  apply (run_ind (λ st, cache_keys_inv (self st))); [|apply run_op_cache_keys].
  unfold cache_keys_inv, unregistered. cbn.
  split; intros ? ? Hx; by rewrite lookup_empty in Hx.
Qed.

End carried.

(** ** Default buckets, and registration after [Close] *)

Lemma register_ignores_status_and_log `{!identity.Accumulator}
    (op : Op) (st : state) (q : scopeStatus) (tr : list Event) :
  register op (mkState (set_status q (self st)) (next_addr st) tr) =
  match register op st with
  | Some (o, st1) =>
      Some (o, mkState (set_status q (self st1)) (next_addr st1)
                 (tr ++ added st st1))
  | None => None
  end.
Proof.
  destruct st as [s n tr0].
  destruct op as [name|name|name|name b| | | |]; cbn [register self next_addr];
    try done.
  - rewrite !Counter_spec. cbv zeta.
    cbn [self next_addr trace counters countersSlice sanitizer set_status].
    unfold cached_handle, cached_call, fullyQualifiedName, logged, added.
    cbn [self next_addr trace prefix separator tags cachedReporter set_status].
    destruct (counters s !! Name (sanitizer s) name); cbn [fst snd trace];
      by rewrite drop_app_length.
  - rewrite !Gauge_spec. cbv zeta.
    cbn [self next_addr trace gauges gaugesSlice sanitizer set_status].
    unfold cached_handle, cached_call, fullyQualifiedName, logged, added.
    cbn [self next_addr trace prefix separator tags cachedReporter set_status].
    destruct (gauges s !! Name (sanitizer s) name); cbn [fst snd trace];
      by rewrite drop_app_length.
  - rewrite !Timer_spec. cbv zeta.
    cbn [self next_addr trace timers sanitizer set_status].
    unfold cached_handle, cached_call, fullyQualifiedName, logged, added.
    cbn [self next_addr trace prefix separator tags reporter cachedReporter
         set_status].
    destruct (timers s !! Name (sanitizer s) name); cbn [fst snd trace];
      by rewrite drop_app_length.
  - rewrite !Histogram_spec. cbv zeta.
    cbn [self next_addr trace histograms histogramsSlice bucketCache sanitizer
         set_status].
    unfold cached_histogram_handle, cached_histogram_call, effective_buckets,
      fullyQualifiedName, logged, added.
    cbn [self next_addr trace prefix separator tags reporter cachedReporter
         defaultBuckets set_status].
    destruct (histograms s !! Name (sanitizer s) name); cbn [fst snd trace];
      [by rewrite drop_app_length|].
    destruct (getBucketsIdentity _); cbn [fst snd trace];
      [destruct (bucketCache s !! _); cbn [fst snd trace]|];
      by rewrite <- !app_assoc, drop_app_length.
Qed.

Section after_close.
Context {Acc : identity.Accumulator} {Rng : MapRange}.

(** X13: the default buckets of a root scope.  They are the buckets of
    the options unless those are nil or have [Len() < 1], in which case
    they are the package's duration ladder; they are never nil.  So a
    first [Histogram(name, nil)] panics exactly when the options carried a
    bucket set of a foreign type with [Len() >= 1], and otherwise returns
    a histogram whose type is the type of the default buckets. *)
Theorem root_default_buckets
    (opts : ScopeOptions) (interval : Z) (ops : list Op) (name : string) :
  let st := run ops (newRootScope opts interval) in
  let s := self st in
  defaultBuckets s = Some (root_defaultBuckets opts) ∧
  (DefaultBuckets opts = None → root_defaultBuckets opts = defaultScopeBuckets) ∧
  (histograms s !! Name (sanitizer s) name = None →
     ((∃ msg, (Histogram name None st).1 = Panicked msg) ↔
      ∃ n, DefaultBuckets opts = Some (OtherBuckets n) ∧ (1 ≤ n)%Z) ∧
     (∀ h, (Histogram name None st).1 = Returned h →
           histogram_htype h = htype_of (Some (root_defaultBuckets opts)))).
Proof.
  intros st s.
  assert (Hdb : defaultBuckets s = Some (root_defaultBuckets opts)).
  { destruct (run_config ops (newRootScope opts interval))
      as (_&_&_&_&_&_&Hd&_). subst s st. by rewrite Hd. }
  split; [done|]. split. { unfold root_defaultBuckets. by intros ->. }
  intros Hnone. rewrite Histogram_spec. cbv zeta. fold s. rewrite Hnone.
  unfold effective_buckets. rewrite Hdb.
  assert (Hother : (∃ n, root_defaultBuckets opts = OtherBuckets n) ↔
                   ∃ n, DefaultBuckets opts = Some (OtherBuckets n) ∧ (1 ≤ n)%Z).
  { unfold root_defaultBuckets. destruct (DefaultBuckets opts) as [b|].
    - destruct (Len b <? 1)%Z eqn:Hlen.
      + split; [by intros [n ?]|]. intros (n&[= ->]&Hn). cbn in Hlen. lia.
      + split.
        * intros [n ->]. exists n. split; [done|]. cbn in Hlen. lia.
        * intros (n&[= ->]&_). eauto.
    - split; [by intros [n ?]|]. by intros (n&?&_). }
  rewrite <- Hother.
  destruct (root_defaultBuckets opts) as [ds|vs|n] eqn:Hr; cbn.
  - split.
    + split; [|by intros [n ?]]. intros [msg Hm]. by repeat case_match.
    + intros h. by repeat case_match; intros [= <-].
  - split.
    + split; [|by intros [n ?]]. intros [msg Hm]. by repeat case_match.
    + intros h. by repeat case_match; intros [= <-].
  - split; [|done]. split; eauto.
Qed.

(** X14: [Close] ends reporting, not registration.  A registration call
    made after a [Close] has the same outcome as the same call made in
    its place: the same instance, or the same panic.  It leaves the state
    that call would have left, but for the status, which is the one
    [Close] left, and the log, which now starts with the log of [Close]. *)
Theorem registration_after_Close (op : Op) (st : state) :
  let closed_st := (Close st).2 in
  register op closed_st =
  match register op st with
  | Some (o, st1) =>
      Some (o, mkState (set_status (status (self closed_st)) (self st1))
                 (next_addr st1)
                 (trace closed_st ++ added st st1))
  | None => None
  end.
Proof.
  intros closed_st.
  assert (Hshape : closed_st =
    mkState (set_status (status (self closed_st)) (self st)) (next_addr st)
      (trace closed_st)).
  { subst closed_st. rewrite Close_spec. cbv zeta.
    destruct st as [s n tr]. cbn [self next_addr trace].
    destruct (closed (status s)); [|destruct (quit (status s))];
      cbn [snd logged self next_addr trace mark_closed set_status status];
      by destruct s. }
  rewrite Hshape at 1. apply register_ignores_status_and_log.
Qed.

End after_close.

(** ** Subscopes *)


Section subscopes.
Context {Rng : MapRange}.


End subscopes.
